(** * cudf::fp::fixed_point — a shallow embedding and its verification

    Source: [cpp/include/cudf/fixed_point/fixed_point.hpp].

    The header defines a class template [fixed_point<Rep, Rad>] holding a
    raw integer [_value] of type [Rep] and a [scale_type] (a strong typedef of
    [int32_t]) [_scale], the shift helpers of namespace [detail], four
    overflow predicates and the arithmetic operators.

    Modelling conventions.
    - Machine integers are mathematical integers ([Z]) with the two's
      complement wrap-around of their width written out ([Int.wrap]);
      this is how the signed overflow of a sum, a difference or a product,
      which C++ leaves undefined, is modelled.  The quotient [MIN / -1]
      of [int] or wider operands is not: the division traps, and it has
      no defined result, like the division by zero.  Operands narrower
      than [int] undergo integral promotion, so their arithmetic is
      carried out on 32 bits and narrowed afterwards.
    - [Rep] ranges over the four signed fixed-width types that
      [print_rep] names; instantiations of the class template at other
      types are not modelled.
    - [double] is IEEE 754 binary64, taken from the standard library's
      executable specification [SpecFloat] (precision 53, [emax] 1024,
      round to nearest even).
    - [std::pow] on two integral arguments is modelled as the correctly
      rounded power; it is exact whenever the power is representable.
      The library function need not round correctly: where the power is
      not representable ([10^23], say) its result may differ from the
      model's in the last place.  The properties use [pow] symbolically,
      at powers below [2^53], where both are exact, or for its
      finiteness.
    - A conversion from [double] to an integer type truncates toward zero
      and has no defined result when the truncated value does not fit (or
      for NaN and the infinities); integer division by zero has no defined
      result either.  Both are modelled by [None] / [Undefined].
    - [CUDF_FAIL] is modelled by the outcome [Failure] carrying the message.
    - The preprocessor symbol [__CUDACC_DEBUG__] is the boolean [debug]. *)

From Stdlib Require Import QArith Qpower.
From Stdlib Require Import ZArith Lia Bool String.
From Stdlib Require Import Floats.SpecFloat.

Local Open Scope Z_scope.

(** ** Machine integers *)

Module Int.

(** Two's complement reduction of [x] to a signed integer of [bits] bits. *)
Definition wrap (bits x : Z) : Z :=
  (x + 2 ^ (bits - 1)) mod 2 ^ bits - 2 ^ (bits - 1).

Definition min_signed (bits : Z) : Z := - 2 ^ (bits - 1).
Definition max_signed (bits : Z) : Z := 2 ^ (bits - 1) - 1.

Definition in_range (bits x : Z) : Prop :=
  min_signed bits <= x <= max_signed bits.

Definition in_rangeb (bits x : Z) : bool :=
  (min_signed bits <=? x) && (x <=? max_signed bits).

End Int.

(** The representation types named by [print_rep]. *)
Inductive Rep : Type := Int8 | Int16 | Int32 | Int64.

Definition bits (r : Rep) : Z :=
  match r with Int8 => 8 | Int16 => 16 | Int32 => 32 | Int64 => 64 end.

(** Width at which arithmetic on [Rep] operands is carried out
    (integral promotion to [int]). *)
Definition promoted_bits (r : Rep) : Z := Z.max 32 (bits r).

(** [std::numeric_limits<Rep>::min()] and [max()]. *)
Definition numeric_limits_min (r : Rep) : Z := Int.min_signed (bits r).
Definition numeric_limits_max (r : Rep) : Z := Int.max_signed (bits r).

(** [enum Radix : int32_t { BASE_2 = 2, BASE_10 = 10 }]. *)
Inductive Radix : Type := BASE_2 | BASE_10.

Definition radix_value (r : Radix) : Z :=
  match r with BASE_2 => 2 | BASE_10 => 10 end.

(** [BOOST_STRONG_TYPEDEF(int32_t, scale_type)]. *)
Definition scale_type : Type := Z.

(** ** IEEE 754 binary64 *)

Module Double.

Definition prec : Z := 53.
Definition emax : Z := 1024.

Definition double : Type := spec_float.

(** Conversion of an integer to [double] (round to nearest even). *)
Definition of_Z (n : Z) : double := binary_normalize prec emax n 0 false.

Definition add : double -> double -> double := SFadd prec emax.
Definition sub : double -> double -> double := SFsub prec emax.
Definition mul : double -> double -> double := SFmul prec emax.
Definition div : double -> double -> double := SFdiv prec emax.

Definition ltb : double -> double -> bool := SFltb.
Definition gtb (x y : double) : bool := SFltb y x.
Definition eqb : double -> double -> bool := SFeqb.

(** Truncation toward zero of a finite [double]. *)
Definition trunc (x : double) : option Z :=
  match x with
  | S754_zero _ => Some 0
  | S754_finite s m e =>
      Some (cond_Zopp s (if 0 <=? e then Z.pos m * 2 ^ e
                         else Z.pos m / 2 ^ (- e)))
  | S754_infinity _ | S754_nan => None
  end.

(** Conversion of a [double] to a signed integer type of [bits] bits. *)
Definition to_int (bits : Z) (x : double) : option Z :=
  match trunc x with
  | Some z => if Int.in_rangeb bits z then Some z else None
  | None => None
  end.

(** [std::pow(base, n)] for a positive integral [base] and an integral
    exponent [n]: the [double] nearest to [base ^ n].  The library
    function returns this value wherever the power is representable, and
    a neighbouring [double] at worst elsewhere. *)
Definition pow (base n : Z) : double :=
  if 0 <=? n then of_Z (base ^ n)
  else
    let '(q, e, l) := SFdiv_core_binary prec emax 1 0 (base ^ (- n)) 0 in
    binary_round_aux prec emax false q e l.

(** Two notions used in the proofs about [double].  The record a right
    shift starts from when nothing has been lost: *)
Definition exact_record (m : Z) : shr_record :=
  {| shr_m := m; shr_r := false; shr_s := false |}.

(** and the canonical binary64 encoding of the integer [z],
    [0 < z < 2^53], with sign [s]: a 53-bit mantissa and the matching
    exponent. *)
Definition normal (s : bool) (z : Z) : double :=
  S754_finite s (Z.to_pos (z * 2 ^ (53 - Zdigits2 z))) (Zdigits2 z - 53).

End Double.

Definition double : Type := Double.double.

(** ** Values of the native arithmetic types

    The constructor and the conversion operator are templates over any
    integer or floating-point type.  A native value is either integral or
    a [double]; the target of a conversion is one of the signed integer
    types or [double] ([float] and the unsigned types are left out). *)

Inductive native : Type :=
| Integral (z : Z)
| Floating (d : double).

Inductive native_type : Type :=
| TInt (r : Rep)
| TDouble.

(** The usual arithmetic conversion applied to the left operand of
    [val / std::pow(...)] and [val * std::pow(...)]. *)
Definition as_double (v : native) : double :=
  match v with
  | Integral z => Double.of_Z z
  | Floating d => d
  end.

(** ** Namespace [detail] *)

Module detail.

(** [scale_type{-1 * scale}]. *)
Definition negate (scale : scale_type) : scale_type :=
  Int.wrap 32 (-1 * scale).

Definition right_shift (Rad : Radix) (val : double) (scale : scale_type)
  : double :=
  Double.div val (Double.pow (radix_value Rad) scale).

Definition left_shift (Rad : Radix) (val : double) (scale : scale_type)
  : double :=
  Double.mul val (Double.pow (radix_value Rad) scale).

Definition shift (Rad : Radix) (val : double) (scale : scale_type)
  : double :=
  if scale >=? 0 then right_shift Rad val scale
  else left_shift Rad val (negate scale).

End detail.

(** ** [scaled_integer] and [fixed_point] *)

Record scaled_integer : Type := { value : Z; scale : scale_type }.

Record fixed_point : Type := { _scale : scale_type; _value : Z }.

(** Result of an operation that may call [CUDF_FAIL] or leave the
    behaviour undefined. *)
Inductive outcome (A : Type) : Type :=
| Done (a : A)
| Failure (msg : string)
| Undefined.

Arguments Done {A} a.
Arguments Failure {A} msg.
Arguments Undefined {A}.

(** A non-const member function: a computation over the object [*this].
    It yields a result together with the new state of [*this], unless a
    callee fails or its behaviour is undefined, in which case no later
    statement runs. *)
Definition method (A : Type) : Type :=
  fixed_point -> outcome (A * fixed_point).

Definition bind {A B : Type} (c : method A) (k : A -> method B) : method B :=
  fun this =>
    match c this with
    | Done (a, this') => k a this'
    | Failure msg => Failure msg
    | Undefined => Undefined
    end.

Notation "x <- c ;; k" := (bind c (fun x => k))
  (at level 61, c at next level, right associativity).

(** Reading [*this]. *)
Definition read_this : method fixed_point :=
  fun this => Done (this, this).

(** The assignment [*this = v]. *)
Definition assign_this (v : fixed_point) : method unit :=
  fun _ => Done (tt, v).

(** Evaluation of an expression that does not touch [*this]. *)
Definition lift {A : Type} (r : outcome A) : method A :=
  fun this =>
    match r with
    | Done a => Done (a, this)
    | Failure msg => Failure msg
    | Undefined => Undefined
    end.

(** The template argument of [print_rep]: one of the four representation
    types, or any other type. *)
Inductive type_argument : Type :=
| RepType (r : Rep)
| OtherType.

(** [std::is_same<Rep, T>::value] for one of the four types [T]. *)
Definition is_same (t : type_argument) (r : Rep) : bool :=
  match t, r with
  | RepType Int8, Int8 | RepType Int16, Int16
  | RepType Int32, Int32 | RepType Int64, Int64 => true
  | _, _ => false
  end.

(** [print_rep<Rep>()]. *)
Definition print_rep (t : type_argument) : string :=
  if is_same t Int8 then "int8_t"
  else if is_same t Int16 then "int16_t"
  else if is_same t Int32 then "int32_t"
  else if is_same t Int64 then "int64_t"
  else "unknown type".

(** The message of the [CUDF_FAIL] calls of the operators of
    [fixed_point<Rep, Rad>]. *)
Definition overflow_message (r : Rep) : string :=
  "fixed_point overflow of underlying represenation type "
  ++ print_rep (RepType r).

(** ** Overflow predicates

    The predicates are templates over the operand type [T], deduced at the
    call site: [operator*] and [operator/] pass the raw values (so [T] is
    [Rep]), whereas [operator+] and [operator-] pass the aligned operands,
    which are [double]s.  [Arithmetic T] collects the operations of [T] the
    predicates use. *)

Class Arithmetic (T : Type) : Type := {
  lit : Z -> T;                (* an integer constant converted to [T] *)
  t_add : T -> T -> T;
  t_sub : T -> T -> T;
  t_div : T -> T -> T;
  t_lt : T -> T -> bool;
  t_gt : T -> T -> bool;
  t_eq : T -> T -> bool
}.

(** Operands of type [Rep]: arithmetic at the promoted width, truncating
    division. *)
Definition rep_arithmetic (r : Rep) : Arithmetic Z := {|
  lit := fun z => z;
  t_add := fun a b => Int.wrap (promoted_bits r) (a + b);
  t_sub := fun a b => Int.wrap (promoted_bits r) (a - b);
  t_div := fun a b => Int.wrap (promoted_bits r) (Z.quot a b);
  t_lt := Z.ltb;
  t_gt := Z.gtb;
  t_eq := Z.eqb
|}.

Definition double_arithmetic : Arithmetic double := {|
  lit := Double.of_Z;
  t_add := Double.add;
  t_sub := Double.sub;
  t_div := Double.div;
  t_lt := Double.ltb;
  t_gt := Double.gtb;
  t_eq := Double.eqb
|}.

Section OverflowPredicates.

Context {T : Type} {A : Arithmetic T}.
Variable rep : Rep.

Definition addition_overflow (lhs rhs : T) : bool :=
  if t_gt rhs (lit 0)
  then t_gt lhs (t_sub (lit (numeric_limits_max rep)) rhs)
  else t_lt lhs (t_sub (lit (numeric_limits_min rep)) rhs).

Definition subtraction_overflow (lhs rhs : T) : bool :=
  if t_gt rhs (lit 0)
  then t_lt lhs (t_add (lit (numeric_limits_min rep)) rhs)
  else t_gt lhs (t_add (lit (numeric_limits_max rep)) rhs).

Definition division_overflow (lhs rhs : T) : bool :=
  t_eq lhs (lit (numeric_limits_min rep)) && t_eq rhs (lit (-1)).

Definition multiplication_overflow (lhs rhs : T) : bool :=
  let min := lit (numeric_limits_min rep) in
  let max := lit (numeric_limits_max rep) in
  if t_gt rhs (lit 0)
  then t_gt lhs (t_div max rhs) || t_lt lhs (t_div min rhs)
  else if t_lt rhs (lit (-1))
  then t_gt lhs (t_div min rhs) || t_lt lhs (t_div max rhs)
  else t_eq rhs (lit (-1)) && t_eq lhs min.

End OverflowPredicates.

(** ** The class template [fixed_point<Rep, Rad>] and its operators *)

Section FixedPoint.

Variable rep : Rep.
Variable Rad : Radix.

(** Narrowing of a promoted arithmetic result to [Rep]. *)
Definition narrow (x : Z) : Z := Int.wrap (bits rep) x.

(** [explicit fixed_point(T const& value, scale_type const& scale)]:
    the stored value is [detail::shift<Rad>(value, scale)] converted to
    [Rep]. *)
Definition from_value_and_scale (value : native) (scale : scale_type)
  : option fixed_point :=
  match Double.to_int (bits rep) (detail.shift Rad (as_double value) scale) with
  | Some v => Some {| _scale := scale; _value := v |}
  | None => None
  end.

(** [explicit fixed_point(scaled_integer<Rep> s)]. *)
Definition from_scaled (s : scaled_integer) : fixed_point :=
  {| _scale := scale s; _value := value s |}.

(** [static_cast<U>(_value)]. *)
Definition static_cast (U : native_type) (v : Z) : native :=
  match U with
  | TInt r => Integral (Int.wrap (bits r) v)
  | TDouble => Floating (Double.of_Z v)
  end.

(** The [double] computed by [explicit operator U()] before it is
    converted to the return type [U]. *)
Definition unshifted (U : native_type) (x : fixed_point) : double :=
  detail.shift Rad (as_double (static_cast U (_value x)))
               (detail.negate (_scale x)).

(** [explicit constexpr operator U() const]. *)
Definition operator_cast (U : native_type) (x : fixed_point)
  : option native :=
  match U with
  | TInt r => option_map Integral (Double.to_int (bits r) (unshifted U x))
  | TDouble => Some (Floating (unshifted U x))
  end.

(** The local [rounded_val] of [get()], an [int]. *)
Definition rounded_val (x : fixed_point) : option Z :=
  Double.to_int 32
    (Double.div (Double.of_Z (_value x))
                (Double.pow (radix_value Rad) (_scale x))).

(** The local [needs_floating_point] of [get()]:
    [rounded_val * Rad * underlying_scale != _value]. *)
Definition needs_floating_point (x : fixed_point) : option bool :=
  match rounded_val x with
  | Some r =>
      Some (negb (Int.wrap 32 (Int.wrap 32 (r * radix_value Rad) * _scale x)
                  =? _value x))
  | None => None
  end.

(** [auto get() const noexcept]: both branches of the conditional are
    brought to their common type, [double]. *)
Definition get (x : fixed_point) : option double :=
  match needs_floating_point x with
  | Some true => option_map as_double (operator_cast TDouble x)
  | Some false => option_map as_double (operator_cast (TInt rep) x)
  | None => None
  end.

(** [operator==]. *)
Definition operator_eq (lhs rhs : fixed_point) : option bool :=
  match get lhs, get rhs with
  | Some a, Some b => Some (Double.eqb a b)
  | _, _ => None
  end.

(** Operands and result scale shared by [operator+] and [operator-]. *)
Definition aligned_rhs (lhs rhs : fixed_point) : double :=
  if _scale lhs >? _scale rhs
  then detail.shift Rad (Double.of_Z (_value rhs))
                    (Int.wrap 32 (_scale lhs - _scale rhs))
  else Double.of_Z (_value rhs).

Definition aligned_lhs (lhs rhs : fixed_point) : double :=
  if _scale lhs <? _scale rhs
  then detail.shift Rad (Double.of_Z (_value lhs))
                    (Int.wrap 32 (_scale rhs - _scale lhs))
  else Double.of_Z (_value lhs).

Definition result_scale (lhs rhs : fixed_point) : scale_type :=
  if _scale lhs >? _scale rhs then _scale lhs else _scale rhs.

Variable debug : bool.

Definition operator_plus (lhs rhs : fixed_point) : outcome fixed_point :=
  let rhsv := aligned_rhs lhs rhs in
  let lhsv := aligned_lhs lhs rhs in
  let scale := result_scale lhs rhs in
  if debug && addition_overflow (A := double_arithmetic) rep lhsv rhsv
  then Failure (overflow_message rep)
  else
    match Double.to_int (bits rep) (Double.add lhsv rhsv) with
    | Some v => Done (from_scaled {| value := v; scale := scale |})
    | None => Undefined
    end.

Definition operator_minus (lhs rhs : fixed_point) : outcome fixed_point :=
  let rhsv := aligned_rhs lhs rhs in
  let lhsv := aligned_lhs lhs rhs in
  let scale := result_scale lhs rhs in
  if debug && subtraction_overflow (A := double_arithmetic) rep lhsv rhsv
  then Failure (overflow_message rep)
  else
    match Double.to_int (bits rep) (Double.sub lhsv rhsv) with
    | Some v => Done (from_scaled {| value := v; scale := scale |})
    | None => Undefined
    end.

Definition operator_multiplies (lhs rhs : fixed_point)
  : outcome fixed_point :=
  if debug && multiplication_overflow (A := rep_arithmetic rep) rep
                (_value lhs) (_value rhs)
  then Failure (overflow_message rep)
  else
    Done (from_scaled
            {| value := narrow (Int.wrap (promoted_bits rep)
                                         (_value lhs * _value rhs));
               scale := Int.wrap 32 (_scale lhs + _scale rhs) |}).

(** [operator/].  The quotient is computed at the promoted width; that of
    the least [int] or [long long] by -1 is not representable there and
    the division has no defined result, as with a zero divisor. *)
Definition operator_divides (lhs rhs : fixed_point)
  : outcome fixed_point :=
  if debug && division_overflow (A := rep_arithmetic rep) rep
                (_value lhs) (_value rhs)
  then Failure (overflow_message rep)
  else if _value rhs =? 0 then Undefined
  else if negb (Int.in_rangeb (promoted_bits rep)
                              (Z.quot (_value lhs) (_value rhs)))
  then Undefined
  else
    Done (from_scaled
            {| value := narrow (Z.quot (_value lhs) (_value rhs));
               scale := Int.wrap 32 (_scale lhs - _scale rhs) |}).

(** Compound assignment: [*this = *this op rhs; return *this;]. *)
Definition operator_plus_assign (rhs : fixed_point) : method fixed_point :=
  this <- read_this ;;
  sum <- lift (operator_plus this rhs) ;;
  _ <- assign_this sum ;;
  read_this.

Definition operator_multiplies_assign (rhs : fixed_point)
  : method fixed_point :=
  this <- read_this ;;
  product <- lift (operator_multiplies this rhs) ;;
  _ <- assign_this product ;;
  read_this.

Definition operator_minus_assign (rhs : fixed_point) : method fixed_point :=
  this <- read_this ;;
  difference <- lift (operator_minus this rhs) ;;
  _ <- assign_this difference ;;
  read_this.

Definition operator_divides_assign (rhs : fixed_point)
  : method fixed_point :=
  this <- read_this ;;
  quotient <- lift (operator_divides this rhs) ;;
  _ <- assign_this quotient ;;
  read_this.

End FixedPoint.

(** ** Reference notions used to state the properties *)

(** Scales whose negation [detail::negate] can represent. *)
Definition negatable (scale : scale_type) : Prop :=
  Int.min_signed 32 < scale <= Int.max_signed 32.

(** A well-formed object: the raw value is a [Rep], the scale an [int32_t]. *)
Definition well_formed (rep : Rep) (x : fixed_point) : Prop :=
  Int.in_range (bits rep) (_value x) /\ Int.in_range 32 (_scale x).

(** The raw value at which [value] is stored at [scale] when nothing is
    lost: [value / Radix^scale] for a non-negative scale, and
    [value * Radix^(-scale)] for a negative one. *)
Definition raw_at (Rad : Radix) (value : Z) (scale : scale_type) : Z :=
  if 0 <=? scale then value / radix_value Rad ^ scale
  else value * radix_value Rad ^ (- scale).

(** [value] is exactly representable at [scale] in [Rep]: the division is
    exact and the raw value is a [Rep]. *)
Definition exactly_representable (rep : Rep) (Rad : Radix) (value : Z)
                                 (scale : scale_type) : bool :=
  (if 0 <=? scale then value mod radix_value Rad ^ scale =? 0 else true)
  && Int.in_rangeb (bits rep) (raw_at Rad value scale).

(** Construction from a native integer followed by the conversion to the
    native integer type [U]. *)
Definition round_trip (rep : Rep) (Rad : Radix) (U : Rep) (value : Z)
                      (scale : scale_type) : option native :=
  match from_value_and_scale rep Rad (Integral value) scale with
  | Some x => operator_cast Rad (TInt U) x
  | None => None
  end.

(** The sum of two values, each constructed from a native integer. *)
Definition plus_of_values (rep : Rep) (Rad : Radix) (debug : bool)
           (v1 : Z) (s1 : scale_type) (v2 : Z) (s2 : scale_type)
  : outcome fixed_point :=
  match from_value_and_scale rep Rad (Integral v1) s1,
        from_value_and_scale rep Rad (Integral v2) s2 with
  | Some a, Some b => operator_plus rep Rad debug a b
  | _, _ => Undefined
  end.

(** A positive finite [double]. *)
Definition finite_positive (x : double) : bool :=
  match x with
  | S754_finite false _ _ => true
  | _ => false
  end.

(** [f] holds of every integer of [[0, n)]. *)
Fixpoint all_below (f : Z -> bool) (n : nat) : bool :=
  match n with
  | O => true
  | S k => f (Z.of_nat k) && all_below f k
  end.

(** What a compound assignment has to produce, given the outcome of the
    binary operator on the prior state of the object: the object holds the
    operator's result, which is also what the returned reference shows; a
    failure of the operator is the failure of the assignment. *)
Definition assignment_of (r : outcome fixed_point)
  : outcome (fixed_point * fixed_point) :=
  match r with
  | Done v => Done (v, v)
  | Failure msg => Failure msg
  | Undefined => Undefined
  end.

(** The exactness test of [get()] as the specification words it, for a
    non-negative scale: the candidate [_value / Radix^scale], re-expanded by
    [Radix^scale], does not reproduce [_value]. *)
Definition spec_needs_floating_point (Rad : Radix) (x : fixed_point) : bool :=
  negb (Z.quot (_value x) (radix_value Rad ^ _scale x)
        * radix_value Rad ^ _scale x =? _value x).

(** Sequencing of two operations: the second runs on the result of the
    first unless the first fails or is undefined. *)
Definition and_then {A B : Type} (r : outcome A) (k : A -> outcome B)
  : outcome B :=
  match r with
  | Done a => k a
  | Failure msg => Failure msg
  | Undefined => Undefined
  end.

(** The raw value of [x] brought to a scale [s] not below its own: the
    quotient of [_value x] by [Radix^(s - _scale x)], truncated toward
    zero; and whether that quotient is exact. *)
Definition aligned_raw (Rad : Radix) (x : fixed_point) (s : scale_type) : Z :=
  Z.quot (_value x) (radix_value Rad ^ (s - _scale x)).

Definition aligns_exactly (Rad : Radix) (x : fixed_point) (s : scale_type)
  : bool :=
  Z.rem (_value x) (radix_value Rad ^ (s - _scale x)) =? 0.

(** The integer a stored pair of non-negative scale stands for:
    [_value * Radix^_scale]. *)
Definition represented (Rad : Radix) (x : fixed_point) : Z :=
  _value x * radix_value Rad ^ _scale x.

(** Objects of non-negative scale that stand for an integer which [Rep]
    holds and [double] holds exactly, and whose quotient by the power of
    the radix (the [int] local of [get()]) fits an [int]. *)
Definition stands_for_integer (rep : Rep) (Rad : Radix) (x : fixed_point)
  : bool :=
  (0 <=? _scale x)
  && (radix_value Rad ^ _scale x <? 2 ^ 53)
  && (Z.abs (represented Rad x) <? 2 ^ 53)
  && Int.in_rangeb (bits rep) (represented Rad x)
  && Int.in_rangeb 32 (Z.quot (_value x) (radix_value Rad ^ _scale x)).

(** The sum as the specification words it: the result has the larger of
    the two scales, the operand of the smaller scale is shifted up to it,
    its raw value multiplied by the power of the radix that separates the
    scales, and the raw values are then added. *)
Definition spec_plus (Rad : Radix) (lhs rhs : fixed_point) : fixed_point :=
  let s := Z.max (_scale lhs) (_scale rhs) in
  {| _scale := s;
     _value := _value lhs * radix_value Rad ^ (s - _scale lhs)
               + _value rhs * radix_value Rad ^ (s - _scale rhs) |}.

(** The conversion of a stored pair to an integer type as the
    specification words it: the pair stands for
    [unscaled * Radix^(-scale)], so the unscaled value is divided by
    [Radix^scale] for a positive scale and multiplied by [Radix^(-scale)]
    for a negative one. *)
Definition spec_cast (Rad : Radix) (x : fixed_point) : Z :=
  if 0 <=? _scale x
  then Z.quot (_value x) (radix_value Rad ^ _scale x)
  else _value x * radix_value Rad ^ (- _scale x).

(** The rational number a stored pair stands for, whatever the sign of
    its scale: [_value * Radix^_scale]. *)
Definition value_of (Rad : Radix) (x : fixed_point) : Q :=
  (inject_Z (_value x) * inject_Z (radix_value Rad) ^ _scale x)%Q.

(** * Properties *)

(** ** Machine integers *)

Module IntFacts.

Lemma pow2_split (bits : Z) : 0 < bits -> 2 ^ bits = 2 * 2 ^ (bits - 1).
Proof.
  intros H. rewrite <- Z.pow_succ_r by lia. f_equal. lia.
Qed.

Lemma wrap_small (bits x : Z) :
  0 < bits -> Int.in_range bits x -> Int.wrap bits x = x.
Proof.
  unfold Int.in_range, Int.wrap, Int.min_signed, Int.max_signed.
  intros Hb Hx. rewrite (pow2_split bits Hb) in *.
  rewrite Z.mod_small by lia. lia.
Qed.

Lemma wrap_in_range (bits x : Z) :
  0 < bits -> Int.in_range bits (Int.wrap bits x).
Proof.
  unfold Int.in_range, Int.wrap, Int.min_signed, Int.max_signed.
  intros Hb.
  assert (0 < 2 ^ bits) by (apply Z.pow_pos_nonneg; lia).
  pose proof (Z.mod_pos_bound (x + 2 ^ (bits - 1)) (2 ^ bits) ltac:(lia)).
  rewrite (pow2_split bits Hb) in *. lia.
Qed.

Lemma wrap_wrap (b1 b2 x : Z) :
  0 < b1 <= b2 -> Int.wrap b1 (Int.wrap b2 x) = Int.wrap b1 x.
Proof.
  intros Hb. unfold Int.wrap. f_equal.
  assert (H1 : 0 < 2 ^ b1) by (apply Z.pow_pos_nonneg; lia).
  assert (H2 : 0 < 2 ^ b2) by (apply Z.pow_pos_nonneg; lia).
  assert (Hdiv : (2 ^ b1 | 2 ^ b2)).
  { exists (2 ^ (b2 - b1)). rewrite <- Z.pow_add_r by lia. f_equal. lia. }
  replace ((x + 2 ^ (b2 - 1)) mod 2 ^ b2 - 2 ^ (b2 - 1) + 2 ^ (b1 - 1))
    with ((x + 2 ^ (b2 - 1)) mod 2 ^ b2 + (2 ^ (b1 - 1) - 2 ^ (b2 - 1)))
    by ring.
  rewrite Zplus_mod.
  rewrite (Z.mod_mod_divide _ _ _ Hdiv).
  rewrite <- Zplus_mod. f_equal. ring.
Qed.

Lemma bits_pos (r : Rep) : 0 < bits r.
Proof. destruct r; reflexivity. Qed.

Lemma promoted_bits_pos (r : Rep) : 0 < promoted_bits r.
Proof. destruct r; reflexivity. Qed.

Lemma bits_le_promoted (r : Rep) : bits r <= promoted_bits r.
Proof. destruct r; cbv; discriminate. Qed.

Lemma in_range_promoted (r : Rep) (x : Z) :
  Int.in_range (bits r) x -> Int.in_range (promoted_bits r) x.
Proof.
  unfold Int.in_range, Int.min_signed, Int.max_signed.
  destruct r; cbn; lia.
Qed.

Lemma in_rangeb_spec (bits x : Z) :
  Int.in_rangeb bits x = true <-> Int.in_range bits x.
Proof.
  unfold Int.in_rangeb, Int.in_range.
  rewrite andb_true_iff, !Z.leb_le. tauto.
Qed.

Lemma narrow_promoted (r : Rep) (x : Z) :
  narrow r (Int.wrap (promoted_bits r) x) = Int.wrap (bits r) x.
Proof.
  unfold narrow. apply wrap_wrap.
  pose proof (bits_pos r). pose proof (bits_le_promoted r). lia.
Qed.

Lemma negate_small (scale : scale_type) :
  negatable scale -> detail.negate scale = - scale.
Proof.
  unfold negatable, detail.negate, Int.min_signed, Int.max_signed.
  intros H. rewrite wrap_small; [lia | lia |].
  unfold Int.in_range, Int.min_signed, Int.max_signed. lia.
Qed.

(** *** Wrap-around and congruence *)

Lemma wrap_congr (bits x y : Z) :
  0 < bits -> x mod 2 ^ bits = y mod 2 ^ bits ->
  Int.wrap bits x = Int.wrap bits y.
Proof.
  intros Hb H. unfold Int.wrap. f_equal.
  assert (2 ^ bits <> 0) by (apply Z.pow_nonzero; lia).
  rewrite (Z.add_mod x), (Z.add_mod y), H by assumption. reflexivity.
Qed.

Lemma wrap_mod (bits x : Z) :
  0 < bits -> Int.wrap bits x mod 2 ^ bits = x mod 2 ^ bits.
Proof.
  intros Hb. unfold Int.wrap. rewrite Zminus_mod_idemp_l. f_equal. ring.
Qed.

Lemma wrap_add_l (bits x y : Z) :
  0 < bits -> Int.wrap bits (Int.wrap bits x + y) = Int.wrap bits (x + y).
Proof.
  intros Hb. apply wrap_congr; [assumption|].
  assert (2 ^ bits <> 0) by (apply Z.pow_nonzero; lia).
  rewrite Z.add_mod, wrap_mod, <- Z.add_mod by assumption. reflexivity.
Qed.

Lemma wrap_add_r (bits x y : Z) :
  0 < bits -> Int.wrap bits (x + Int.wrap bits y) = Int.wrap bits (x + y).
Proof.
  intros Hb. rewrite (Z.add_comm x), wrap_add_l, (Z.add_comm y) by assumption.
  reflexivity.
Qed.

Lemma wrap_sub_l (bits x y : Z) :
  0 < bits -> Int.wrap bits (Int.wrap bits x - y) = Int.wrap bits (x - y).
Proof.
  intros Hb. unfold Z.sub. apply wrap_add_l, Hb.
Qed.

Lemma wrap_mul_l (bits x y : Z) :
  0 < bits -> Int.wrap bits (Int.wrap bits x * y) = Int.wrap bits (x * y).
Proof.
  intros Hb. apply wrap_congr; [assumption|].
  assert (2 ^ bits <> 0) by (apply Z.pow_nonzero; lia).
  rewrite Z.mul_mod, wrap_mod, <- Z.mul_mod by assumption. reflexivity.
Qed.

Lemma wrap_mul_r (bits x y : Z) :
  0 < bits -> Int.wrap bits (x * Int.wrap bits y) = Int.wrap bits (x * y).
Proof.
  intros Hb. rewrite (Z.mul_comm x), wrap_mul_l, (Z.mul_comm y) by assumption.
  reflexivity.
Qed.

Lemma in_rangeb_promoted (r : Rep) (x : Z) :
  Int.in_range (bits r) x -> Int.in_rangeb (promoted_bits r) x = true.
Proof.
  intros H. apply in_rangeb_spec, in_range_promoted, H.
Qed.

Lemma in_rangeb_false (bits x : Z) :
  Int.in_rangeb bits x = false <-> ~ Int.in_range bits x.
Proof.
  rewrite <- in_rangeb_spec.
  destruct (Int.in_rangeb bits x); split; congruence.
Qed.

Lemma negate_involutive (scale : scale_type) :
  Int.in_range 32 scale -> detail.negate (detail.negate scale) = scale.
Proof.
  intros Hs. unfold detail.negate.
  replace (-1 * Int.wrap 32 (-1 * scale)) with (Int.wrap 32 (-1 * scale) * -1)
    by ring.
  rewrite wrap_mul_l by lia.
  replace (-1 * scale * -1) with scale by lia.
  apply wrap_small; [lia | assumption].
Qed.

End IntFacts.

(** ** Binary64 arithmetic on integers below [2^53]

    Conversions, products and exact quotients of integers whose magnitude
    is below [2^53] involve no rounding. *)

Module DoubleFacts.

Lemma digits2_pos_log2 (p : positive) :
  Z.pos (digits2_pos p) = Z.log2 (Z.pos p) + 1.
Proof.
  induction p as [p IH | p IH |]; simpl; try reflexivity.
  - destruct p; simpl in *; lia.
  - destruct p; simpl in *; lia.
Qed.

Lemma Zdigits2_log2 (m : Z) : 0 < m -> Zdigits2 m = Z.log2 m + 1.
Proof. destruct m; try lia. intros _. apply digits2_pos_log2. Qed.

Lemma Zdigits2_mul_pow2 (m k : Z) :
  0 < m -> 0 <= k -> Zdigits2 (m * 2 ^ k) = Zdigits2 m + k.
Proof.
  intros Hm Hk. rewrite !Zdigits2_log2 by (try apply Z.mul_pos_pos; lia).
  rewrite Z.log2_mul_pow2 by lia. lia.
Qed.

Lemma Zdigits2_bounds (m : Z) :
  0 < m -> 2 ^ (Zdigits2 m - 1) <= m < 2 ^ Zdigits2 m.
Proof.
  intros Hm. rewrite Zdigits2_log2 by assumption.
  replace (Z.log2 m + 1 - 1) with (Z.log2 m) by lia.
  replace (Z.log2 m + 1) with (Z.succ (Z.log2 m)) by lia.
  apply Z.log2_spec. assumption.
Qed.

Lemma shr_1_exact (m : Z) :
  0 <= m ->
  shr_1 (Double.exact_record (2 * m)) = Double.exact_record m.
Proof. destruct m; try lia; reflexivity. Qed.

Lemma pow2_xI (p : positive) : 2 ^ Z.pos p~1 = 2 * (2 ^ Z.pos p * 2 ^ Z.pos p).
Proof.
  replace (Z.pos p~1) with (Z.pos p + Z.pos p + 1) by lia.
  rewrite !Z.pow_add_r by lia. rewrite Z.pow_1_r. ring.
Qed.

Lemma pow2_xO (p : positive) : 2 ^ Z.pos p~0 = 2 ^ Z.pos p * 2 ^ Z.pos p.
Proof.
  replace (Z.pos p~0) with (Z.pos p + Z.pos p) by lia.
  rewrite Z.pow_add_r by lia. reflexivity.
Qed.

Lemma iter_pos_shr_1_exact (p : positive) :
  forall m, 0 <= m ->
  iter_pos shr_1 p (Double.exact_record (m * 2 ^ Z.pos p))
  = Double.exact_record m.
Proof.
  induction p as [p IH | p IH |]; intros m Hm; cbn [iter_pos].
  - rewrite pow2_xI.
    replace (m * (2 * (2 ^ Z.pos p * 2 ^ Z.pos p)))
      with (2 * ((m * 2 ^ Z.pos p) * 2 ^ Z.pos p)) by ring.
    rewrite shr_1_exact by (repeat apply Z.mul_nonneg_nonneg; lia).
    rewrite IH by (apply Z.mul_nonneg_nonneg; lia). apply IH, Hm.
  - rewrite pow2_xO, Z.mul_assoc.
    rewrite IH by (apply Z.mul_nonneg_nonneg; lia). apply IH, Hm.
  - rewrite Z.pow_1_r, Z.mul_comm. apply shr_1_exact, Hm.
Qed.

Lemma shr_exact (m e n : Z) :
  0 <= m -> 0 <= n ->
  shr (Double.exact_record (m * 2 ^ n)) e n = (Double.exact_record m, e + n).
Proof.
  intros Hm Hn. destruct n as [|p|p]; try lia.
  - simpl. rewrite Z.mul_1_r, Z.add_0_r. reflexivity.
  - unfold shr. rewrite iter_pos_shr_1_exact by assumption. reflexivity.
Qed.

Lemma binary_round_aux_exact (s : bool) (m e n : Z) :
  0 < m -> 0 <= n ->
  fexp Double.prec Double.emax (Zdigits2 m + (e + n)) = e + n ->
  e + n <= Double.emax - Double.prec ->
  binary_round_aux Double.prec Double.emax s (m * 2 ^ n) e loc_Exact
  = S754_finite s (Z.to_pos m) (e + n).
Proof.
  intros Hm Hn Hfexp Hmax.
  unfold binary_round_aux.
  assert (Hsh : shr_fexp Double.prec Double.emax (m * 2 ^ n) e loc_Exact
                = (Double.exact_record m, e + n)).
  { unfold shr_fexp. rewrite Zdigits2_mul_pow2 by lia.
    replace (Zdigits2 m + n + e) with (Zdigits2 m + (e + n)) by lia.
    rewrite Hfexp. replace (e + n - e) with n by lia.
    apply (shr_exact m e n); lia. }
  rewrite Hsh.
  cbn [Double.exact_record shr_m loc_of_shr_record round_nearest_even].
  assert (Hsh2 : shr_fexp Double.prec Double.emax m (e + n) loc_Exact
                 = (Double.exact_record m, e + n)).
  { unfold shr_fexp. rewrite Hfexp. rewrite Z.sub_diag. reflexivity. }
  rewrite Hsh2. cbn [Double.exact_record shr_m].
  destruct m as [|p|p]; try lia.
  apply Z.leb_le in Hmax. rewrite Hmax. reflexivity.
Qed.

Lemma iter_xO (m d : positive) :
  Z.pos (Pos.iter xO m d) = Z.pos m * 2 ^ Z.pos d.
Proof.
  induction d as [|d IH] using Pos.peano_ind.
  - simpl. lia.
  - rewrite Pos.iter_succ, Pos2Z.inj_xO, IH, Pos2Z.inj_succ.
    rewrite Z.pow_succ_r by lia. ring.
Qed.

Lemma shl_align_spec (mx : positive) (ex ex' : Z) :
  ex' <= ex ->
  exists mz, shl_align mx ex ex' = (mz, ex') /\
             Z.pos mz = Z.pos mx * 2 ^ (ex - ex').
Proof.
  intros H. unfold shl_align.
  destruct (ex' - ex) as [|d|d] eqn:E; try lia.
  - exists mx. assert (ex' = ex) by lia. subst ex'.
    rewrite Z.sub_diag, Z.mul_1_r. auto.
  - exists (Pos.iter xO mx d). split; [reflexivity|].
    rewrite iter_xO. f_equal. f_equal. lia.
Qed.

Lemma Zdigits2_pos (m : Z) : 0 < m -> 0 < Zdigits2 m.
Proof. destruct m; simpl; lia. Qed.

Lemma Zdigits2_le (m k : Z) :
  0 < m -> 0 <= k -> m < 2 ^ k -> Zdigits2 m <= k.
Proof.
  intros Hm Hk Hlt. pose proof (Zdigits2_bounds m Hm) as [Hlo _].
  pose proof (Zdigits2_pos m Hm).
  destruct (Z_le_gt_dec (Zdigits2 m) k) as [|Hgt]; [assumption|exfalso].
  assert (2 ^ k <= 2 ^ (Zdigits2 m - 1)) by (apply Z.pow_le_mono_r; lia).
  lia.
Qed.

Lemma fexp_small (d : Z) : 0 < d -> fexp Double.prec Double.emax d = d - 53.
Proof. intros H. unfold fexp, emin, Double.prec, Double.emax. lia. Qed.

Lemma normal_mantissa_digits (z : Z) :
  0 < z -> z < 2 ^ 53 -> Zdigits2 (z * 2 ^ (53 - Zdigits2 z)) = 53.
Proof.
  intros Hz Hlt. pose proof (Zdigits2_le z 53 Hz ltac:(lia) Hlt).
  rewrite Zdigits2_mul_pow2 by lia. lia.
Qed.

Lemma binary_round_normal (s : bool) (p : positive) :
  Z.pos p < 2 ^ 53 ->
  binary_round Double.prec Double.emax s p 0 = Double.normal s (Z.pos p).
Proof.
  intros Hlt. unfold binary_round.
  pose proof (Zdigits2_le (Z.pos p) 53 ltac:(lia) ltac:(lia) Hlt) as Hd.
  pose proof (Zdigits2_pos (Z.pos p) ltac:(lia)) as Hd0.
  change (Z.pos (digits2_pos p)) with (Zdigits2 (Z.pos p)).
  rewrite Z.add_0_r, fexp_small by assumption.
  destruct (shl_align_spec p 0 (Zdigits2 (Z.pos p) - 53) ltac:(lia))
    as (mz & -> & Hmz).
  rewrite Hmz.
  replace (0 - (Zdigits2 (Z.pos p) - 53)) with (53 - Zdigits2 (Z.pos p)) by lia.
  pose proof (binary_round_aux_exact s (Z.pos p * 2 ^ (53 - Zdigits2 (Z.pos p)))
                (Zdigits2 (Z.pos p) - 53) 0) as H.
  rewrite Z.pow_0_r, Z.mul_1_r, Z.add_0_r in H. apply H.
  - apply Z.mul_pos_pos; [lia|]. apply Z.pow_pos_nonneg; lia.
  - lia.
  - rewrite normal_mantissa_digits by lia.
    replace (53 + (Zdigits2 (Z.pos p) - 53)) with (Zdigits2 (Z.pos p)) by lia.
    apply fexp_small. lia.
  - unfold Double.emax, Double.prec. lia.
Qed.

Lemma of_Z_pos (z : Z) :
  0 < z -> z < 2 ^ 53 -> Double.of_Z z = Double.normal false z.
Proof. destruct z; try lia. intros _ H. apply binary_round_normal, H. Qed.

Lemma of_Z_neg (z : Z) :
  0 < z -> z < 2 ^ 53 -> Double.of_Z (- z) = Double.normal true z.
Proof. destruct z; try lia. intros _ H. apply binary_round_normal, H. Qed.

Lemma Zdigits2_mul_lower (a b : Z) :
  0 < a -> 0 < b -> Zdigits2 a + Zdigits2 b - 1 <= Zdigits2 (a * b).
Proof.
  intros Ha Hb.
  pose proof (Zdigits2_bounds a Ha) as [Hla _].
  pose proof (Zdigits2_bounds b Hb) as [Hlb _].
  pose proof (Zdigits2_bounds (a * b) ltac:(apply Z.mul_pos_pos; lia))
    as [_ Hu].
  pose proof (Zdigits2_pos a Ha). pose proof (Zdigits2_pos b Hb).
  pose proof (Zdigits2_pos (a * b) ltac:(apply Z.mul_pos_pos; lia)).
  assert (2 ^ (Zdigits2 a - 1 + (Zdigits2 b - 1)) < 2 ^ Zdigits2 (a * b)).
  { rewrite Z.pow_add_r by lia.
    eapply Z.le_lt_trans; [|exact Hu].
    apply Z.mul_le_mono_nonneg; try lia; apply Z.pow_nonneg; lia. }
  apply Z.pow_lt_mono_r_iff in H2; lia.
Qed.

Lemma mul_normal (sa sb : bool) (a b : Z) :
  0 < a -> 0 < b -> a * b < 2 ^ 53 ->
  SFmul Double.prec Double.emax (Double.normal sa a) (Double.normal sb b)
  = Double.normal (xorb sa sb) (a * b).
Proof.
  intros Ha Hb Hab.
  assert (Hab0 : 0 < a * b) by (apply Z.mul_pos_pos; lia).
  assert (Ha53 : a < 2 ^ 53) by nia.
  assert (Hb53 : b < 2 ^ 53) by nia.
  pose proof (Zdigits2_le a 53 Ha ltac:(lia) Ha53) as Hda.
  pose proof (Zdigits2_le b 53 Hb ltac:(lia) Hb53) as Hdb.
  pose proof (Zdigits2_le (a * b) 53 Hab0 ltac:(lia) Hab) as Hdab.
  pose proof (Zdigits2_mul_lower a b Ha Hb) as Hlow.
  pose proof (Zdigits2_pos _ Hab0) as Hdab0.
  unfold Double.normal at 1 2. cbn [SFmul].
  set (da := Zdigits2 a) in *. set (db := Zdigits2 b) in *.
  set (dab := Zdigits2 (a * b)) in *.
  assert (Hpa : 0 < a * 2 ^ (53 - da))
    by (apply Z.mul_pos_pos; [lia | apply Z.pow_pos_nonneg; lia]).
  assert (Hpb : 0 < b * 2 ^ (53 - db))
    by (apply Z.mul_pos_pos; [lia | apply Z.pow_pos_nonneg; lia]).
  rewrite Pos2Z.inj_mul, !Z2Pos.id by assumption.
  replace (a * 2 ^ (53 - da) * (b * 2 ^ (53 - db)))
    with ((a * b * 2 ^ (53 - dab)) * 2 ^ (dab + 53 - da - db)).
  2:{ replace (a * b * 2 ^ (53 - dab) * 2 ^ (dab + 53 - da - db))
        with (a * b * (2 ^ (53 - dab) * 2 ^ (dab + 53 - da - db))) by ring.
      rewrite <- Z.pow_add_r by lia.
      replace (a * 2 ^ (53 - da) * (b * 2 ^ (53 - db)))
        with (a * b * (2 ^ (53 - da) * 2 ^ (53 - db))) by ring.
      rewrite <- Z.pow_add_r by lia. f_equal. f_equal. lia. }
  rewrite binary_round_aux_exact.
  - unfold Double.normal. fold dab. f_equal. lia.
  - apply Z.mul_pos_pos; [lia|apply Z.pow_pos_nonneg; lia].
  - lia.
  - unfold dab. rewrite normal_mantissa_digits by lia. fold dab.
    replace (53 + (da - 53 + (db - 53) + (dab + 53 - da - db))) with dab by lia.
    replace (da - 53 + (db - 53) + (dab + 53 - da - db)) with (dab - 53) by lia.
    apply fexp_small. lia.
  - unfold Double.emax, Double.prec. lia.
Qed.

Lemma div_eucl_exact (q b : Z) : 0 < b -> Z.div_eucl (q * b) b = (q, 0).
Proof.
  intros Hb. pose proof (Z.div_mul q b ltac:(lia)) as Hq.
  pose proof (Z.mod_mul q b ltac:(lia)) as Hr.
  unfold Z.div, Z.modulo in Hq, Hr.
  destruct (Z.div_eucl (q * b) b) as [q' r']. congruence.
Qed.

Lemma new_location_exact (n : Z) : new_location n 0 = loc_Exact.
Proof. unfold new_location. destruct (Z.even n); reflexivity. Qed.

Lemma Zdigits2_div_lower (c b : Z) :
  0 < c -> 0 < b -> Zdigits2 (c * b) <= Zdigits2 c + Zdigits2 b.
Proof.
  intros Hc Hb.
  pose proof (Zdigits2_bounds c Hc) as [_ Huc].
  pose proof (Zdigits2_bounds b Hb) as [_ Hub].
  pose proof (Zdigits2_pos c Hc). pose proof (Zdigits2_pos b Hb).
  apply Zdigits2_le; [apply Z.mul_pos_pos; lia | lia |].
  rewrite Z.pow_add_r by lia.
  apply Z.mul_lt_mono_nonneg; lia.
Qed.

Lemma div_normal (sa sb : bool) (c b : Z) :
  0 < c -> 0 < b -> c * b < 2 ^ 53 ->
  SFdiv Double.prec Double.emax (Double.normal sa (c * b))
        (Double.normal sb b)
  = Double.normal (xorb sa sb) c.
Proof.
  intros Hc Hb Hab.
  assert (Ha0 : 0 < c * b) by (apply Z.mul_pos_pos; lia).
  assert (Hc53 : c < 2 ^ 53) by nia.
  assert (Hb53 : b < 2 ^ 53) by nia.
  pose proof (Zdigits2_le _ 53 Ha0 ltac:(lia) Hab) as Hda.
  pose proof (Zdigits2_le b 53 Hb ltac:(lia) Hb53) as Hdb.
  pose proof (Zdigits2_le c 53 Hc ltac:(lia) Hc53) as Hdc.
  pose proof (Zdigits2_div_lower c b Hc Hb) as Hlow.
  pose proof (Zdigits2_pos _ Ha0) as Hda0.
  pose proof (Zdigits2_pos _ Hb) as Hdb0.
  pose proof (Zdigits2_pos _ Hc) as Hdc0.
  pose proof (normal_mantissa_digits _ Ha0 Hab) as HdA.
  pose proof (normal_mantissa_digits _ Hb Hb53) as HdB.
  unfold Double.normal at 1 2. cbn [SFdiv].
  set (da := Zdigits2 (c * b)) in *. set (db := Zdigits2 b) in *.
  set (dc := Zdigits2 c) in *.
  assert (Hpa : 0 < c * b * 2 ^ (53 - da))
    by (apply Z.mul_pos_pos; [lia | apply Z.pow_pos_nonneg; lia]).
  assert (Hpb : 0 < b * 2 ^ (53 - db))
    by (apply Z.mul_pos_pos; [lia | apply Z.pow_pos_nonneg; lia]).
  rewrite !Z2Pos.id by assumption.
  assert (Hcore :
    SFdiv_core_binary Double.prec Double.emax (c * b * 2 ^ (53 - da)) (da - 53)
                      (b * 2 ^ (53 - db)) (db - 53)
    = (c * 2 ^ (53 + db - da), da - db - 53, loc_Exact)).
  { unfold SFdiv_core_binary. rewrite HdA, HdB.
    replace (53 + (da - 53) - (53 + (db - 53))) with (da - db) by lia.
    assert (Hfx : fexp Double.prec Double.emax (da - db) = da - db - 53)
      by (unfold fexp, emin, Double.prec, Double.emax; lia).
    rewrite Hfx.
    replace (Z.min (da - db - 53) (da - 53 - (db - 53))) with (da - db - 53)
      by lia.
    replace (da - 53 - (db - 53) - (da - db - 53)) with 53 by lia.
    rewrite Z.shiftl_mul_pow2 by lia.
    replace (c * b * 2 ^ (53 - da) * 2 ^ 53)
      with (c * 2 ^ (53 + db - da) * (b * 2 ^ (53 - db))).
    2:{ replace (c * b * 2 ^ (53 - da) * 2 ^ 53)
          with (c * b * (2 ^ (53 - da) * 2 ^ 53)) by ring.
        rewrite <- Z.pow_add_r by lia.
        replace (c * 2 ^ (53 + db - da) * (b * 2 ^ (53 - db)))
          with (c * b * (2 ^ (53 + db - da) * 2 ^ (53 - db))) by ring.
        rewrite <- Z.pow_add_r by lia. f_equal. f_equal. lia. }
    rewrite div_eucl_exact by assumption.
    rewrite new_location_exact. reflexivity. }
  rewrite Hcore.
  replace (c * 2 ^ (53 + db - da))
    with ((c * 2 ^ (53 - dc)) * 2 ^ (dc + db - da)).
  2:{ rewrite <- Z.mul_assoc, <- Z.pow_add_r by lia. f_equal. f_equal. lia. }
  rewrite binary_round_aux_exact.
  - unfold Double.normal. fold dc. f_equal. lia.
  - apply Z.mul_pos_pos; [lia|apply Z.pow_pos_nonneg; lia].
  - lia.
  - unfold dc. rewrite normal_mantissa_digits by lia. fold dc.
    replace (53 + (da - db - 53 + (dc + db - da))) with dc by lia.
    replace (da - db - 53 + (dc + db - da)) with (dc - 53) by lia.
    apply fexp_small. lia.
  - unfold Double.emax, Double.prec. lia.
Qed.

Lemma trunc_normal (s : bool) (z : Z) :
  0 < z -> z < 2 ^ 53 ->
  Double.trunc (Double.normal s z) = Some (cond_Zopp s z).
Proof.
  intros Hz Hlt. pose proof (Zdigits2_le z 53 Hz ltac:(lia) Hlt) as Hd.
  unfold Double.normal, Double.trunc.
  rewrite Z2Pos.id by (apply Z.mul_pos_pos; [lia|apply Z.pow_pos_nonneg; lia]).
  f_equal. f_equal.
  destruct (0 <=? Zdigits2 z - 53) eqn:E.
  - apply Z.leb_le in E. replace (Zdigits2 z) with 53 by lia. simpl. lia.
  - replace (- (Zdigits2 z - 53)) with (53 - Zdigits2 z) by lia.
    apply Z.div_mul. apply Z.pow_nonzero; lia.
Qed.

Lemma of_Z_zero : Double.of_Z 0 = S754_zero false.
Proof. reflexivity. Qed.

Lemma trunc_of_Z (z : Z) :
  Z.abs z < 2 ^ 53 -> Double.trunc (Double.of_Z z) = Some z.
Proof.
  intros Hz. destruct z as [|p|p].
  - reflexivity.
  - rewrite of_Z_pos, trunc_normal by lia. reflexivity.
  - change (Z.neg p) with (- Z.pos p).
    rewrite of_Z_neg, trunc_normal by lia. reflexivity.
Qed.

Lemma to_int_of_Z (bits z : Z) :
  Z.abs z < 2 ^ 53 -> Int.in_range bits z ->
  Double.to_int bits (Double.of_Z z) = Some z.
Proof.
  intros Hz Hr. unfold Double.to_int. rewrite trunc_of_Z by assumption.
  apply IntFacts.in_rangeb_spec in Hr. rewrite Hr. reflexivity.
Qed.

Lemma mul_of_Z (a b : Z) :
  0 < b < 2 ^ 53 -> Z.abs (a * b) < 2 ^ 53 ->
  Double.mul (Double.of_Z a) (Double.of_Z b) = Double.of_Z (a * b).
Proof.
  intros Hb Hab. unfold Double.mul. rewrite (of_Z_pos b) by lia.
  destruct a as [|p|p].
  - reflexivity.
  - rewrite (of_Z_pos (Z.pos p)), (of_Z_pos (Z.pos p * b)) by lia.
    apply mul_normal; lia.
  - change (Z.neg p) with (- Z.pos p). rewrite Z.mul_opp_l.
    rewrite (of_Z_neg (Z.pos p)), (of_Z_neg (Z.pos p * b)) by lia.
    apply mul_normal; lia.
Qed.

Lemma div_of_Z (c b : Z) :
  0 < b < 2 ^ 53 -> Z.abs (c * b) < 2 ^ 53 ->
  Double.div (Double.of_Z (c * b)) (Double.of_Z b) = Double.of_Z c.
Proof.
  intros Hb Hcb. unfold Double.div. rewrite (of_Z_pos b) by lia.
  destruct c as [|p|p].
  - reflexivity.
  - rewrite (of_Z_pos (Z.pos p)), (of_Z_pos (Z.pos p * b)) by nia.
    apply div_normal; lia.
  - change (Z.neg p) with (- Z.pos p). rewrite Z.mul_opp_l.
    rewrite (of_Z_neg (Z.pos p)), (of_Z_neg (Z.pos p * b)) by nia.
    apply div_normal; lia.
Qed.

(** ** Rounded quotients of integers below [2^53]

    The quotient of two such integers, rounded to nearest, never reaches the
    next integer: truncating it gives the integer quotient. *)

Lemma loc_of_record_of_loc (m : Z) (l : location) :
  loc_of_shr_record (shr_record_of_loc m l) = l.
Proof. destruct l as [|[]]; reflexivity. Qed.

Lemma shr_m_record_of_loc (m : Z) (l : location) :
  shr_m (shr_record_of_loc m l) = m.
Proof. destruct l as [|[]]; reflexivity. Qed.

Lemma round_nearest_even_cases (m : Z) (l : location) :
  round_nearest_even m l = m
  \/ (round_nearest_even m l = m + 1
      /\ (l = loc_Inexact Eq \/ l = loc_Inexact Gt)).
Proof.
  destruct l as [|[]]; cbn; auto.
  destruct (Z.even m); auto.
Qed.

Lemma Zdigits2_53 (q : Z) : 2 ^ 52 <= q < 2 ^ 53 -> Zdigits2 q = 53.
Proof.
  intros [Hlo Hhi].
  pose proof (Zdigits2_le q 53 ltac:(lia) ltac:(lia) Hhi).
  pose proof (Zdigits2_bounds q ltac:(lia)) as [_ Hu].
  destruct (Z_le_gt_dec 53 (Zdigits2 q)); [lia|exfalso].
  assert (2 ^ Zdigits2 q <= 2 ^ 52) by (apply Z.pow_le_mono_r; lia). lia.
Qed.

Lemma Zdigits2_54 (q : Z) : 2 ^ 53 <= q < 2 ^ 54 -> Zdigits2 q = 54.
Proof.
  intros [Hlo Hhi].
  pose proof (Zdigits2_le q 54 ltac:(lia) ltac:(lia) Hhi).
  pose proof (Zdigits2_bounds q ltac:(lia)) as [_ Hu].
  destruct (Z_le_gt_dec 54 (Zdigits2 q)); [lia|exfalso].
  assert (2 ^ Zdigits2 q <= 2 ^ 53) by (apply Z.pow_le_mono_r; lia). lia.
Qed.

Lemma shr_1_pos (q : Z) (r s : bool) :
  0 < q ->
  shr_1 {| shr_m := q; shr_r := r; shr_s := s |}
  = {| shr_m := Z.div2 q; shr_r := Z.odd q; shr_s := r || s |}.
Proof. destruct q as [|[p|p|]|]; try lia; reflexivity. Qed.

(** The second normalisation step of [binary_round_aux], on a mantissa in
    [[2^52, 2^53]]. *)
Lemma shr_fexp_carry (m e : Z) :
  2 ^ 52 <= m <= 2 ^ 53 -> -1074 <= e ->
  exists m' e',
    shr_fexp Double.prec Double.emax m e loc_Exact
    = (Double.exact_record m', e')
    /\ 0 < m' /\ e <= e' <= e + 1 /\ m = m' * 2 ^ (e' - e).
Proof.
  intros Hm He. unfold shr_fexp.
  destruct (Z.eq_dec m (2 ^ 53)) as [-> | Hne].
  - exists (2 ^ 52), (e + 1).
    rewrite Zdigits2_54 by lia.
    replace (fexp Double.prec Double.emax (54 + e) - e) with 1
      by (unfold fexp, emin, Double.prec, Double.emax; lia).
    split; [reflexivity|]. split; [lia|]. split; [lia|].
    replace (e + 1 - e) with 1 by lia. reflexivity.
  - exists m, e.
    rewrite Zdigits2_53 by lia.
    replace (fexp Double.prec Double.emax (53 + e) - e) with 0
      by (unfold fexp, emin, Double.prec, Double.emax; lia).
    split; [reflexivity|]. split; [lia|]. split; [lia|].
    rewrite Z.sub_diag. lia.
Qed.

Lemma binary_round_aux_quotient (s : bool) (q e : Z) (l : location) :
  2 ^ 52 <= q < 2 ^ 54 -> -1074 <= e -> e + 2 <= 971 ->
  exists m E m1 n,
    binary_round_aux Double.prec Double.emax s q e l
    = S754_finite s (Z.to_pos m) E
    /\ 0 < m /\ 0 <= n <= 1 /\ e + n <= E <= e + n + 1
    /\ m1 = m * 2 ^ (E - (e + n))
    /\ 2 ^ 52 <= q / 2 ^ n
    /\ (m1 = q / 2 ^ n
        \/ (m1 = q / 2 ^ n + 1
            /\ ((n = 0 /\ (l = loc_Inexact Eq \/ l = loc_Inexact Gt))
                \/ (n = 1 /\ q mod 2 = 1)))).
Proof.
  intros Hq He Hmax.
  destruct (Z_lt_ge_dec q (2 ^ 53)) as [Hlt | Hge].
  - (* a mantissa of 53 digits is not shifted *)
    assert (Hs1 : shr_fexp Double.prec Double.emax q e l
                  = (shr_record_of_loc q l, e)).
    { unfold shr_fexp. rewrite Zdigits2_53 by lia.
      replace (fexp Double.prec Double.emax (53 + e) - e) with 0
        by (unfold fexp, emin, Double.prec, Double.emax; lia).
      reflexivity. }
    unfold binary_round_aux. rewrite Hs1.
    rewrite loc_of_record_of_loc, shr_m_record_of_loc.
    set (m1 := round_nearest_even q l).
    assert (Hm1 : 2 ^ 52 <= m1 <= 2 ^ 53)
      by (destruct (round_nearest_even_cases q l) as [H | [H _]];
          unfold m1; rewrite H; lia).
    destruct (shr_fexp_carry m1 e Hm1 He) as (m' & e' & Hs2 & Hm' & He' & Hv).
    rewrite Hs2. cbn [Double.exact_record shr_m].
    exists m', e', m1, 0.
    destruct m' as [|p|p]; try lia.
    replace (e' <=? Double.emax - Double.prec) with true
      by (symmetry; apply Z.leb_le; unfold Double.emax, Double.prec; lia).
    rewrite Z.add_0_r, Z.pow_0_r, Z.div_1_r.
    split; [reflexivity|]. split; [lia|]. split; [lia|]. split; [lia|].
    split; [exact Hv|]. split; [lia|].
    destruct (round_nearest_even_cases q l) as [H | [H Hl]]; fold m1 in H.
    + left. exact H.
    + right. split; [exact H|]. left. auto.
  - (* a mantissa of 54 digits is shifted once *)
    assert (Hs1 : shr_fexp Double.prec Double.emax q e l
                  = (shr_1 (shr_record_of_loc q l), e + 1)).
    { unfold shr_fexp. rewrite Zdigits2_54 by lia.
      replace (fexp Double.prec Double.emax (54 + e) - e) with 1
        by (unfold fexp, emin, Double.prec, Double.emax; lia).
      reflexivity. }
    unfold binary_round_aux. rewrite Hs1.
    assert (Hshr : exists sticky,
               shr_1 (shr_record_of_loc q l)
               = {| shr_m := q / 2; shr_r := Z.odd q; shr_s := sticky |}).
    { rewrite <- Z.div2_div.
      destruct l as [|[]]; cbn [shr_record_of_loc];
        rewrite shr_1_pos by lia; eexists; reflexivity. }
    destruct Hshr as (sticky & Hshr). rewrite Hshr. cbn [shr_m].
    set (l' := loc_of_shr_record _).
    set (m1 := round_nearest_even (q / 2) l').
    assert (Hhalf : 2 ^ 52 <= q / 2 < 2 ^ 53).
    { split; [apply Z.div_le_lower_bound | apply Z.div_lt_upper_bound]; lia. }
    assert (Hm1 : 2 ^ 52 <= m1 <= 2 ^ 53)
      by (destruct (round_nearest_even_cases (q / 2) l') as [H | [H _]];
          unfold m1; rewrite H; lia).
    destruct (shr_fexp_carry m1 (e + 1) Hm1 ltac:(lia))
      as (m' & e' & Hs2 & Hm' & He' & Hv).
    rewrite Hs2. cbn [Double.exact_record shr_m].
    exists m', e', m1, 1.
    destruct m' as [|p|p]; try lia.
    replace (e' <=? Double.emax - Double.prec) with true
      by (symmetry; apply Z.leb_le; unfold Double.emax, Double.prec; lia).
    rewrite Z.pow_1_r.
    split; [reflexivity|]. split; [lia|]. split; [lia|]. split; [lia|].
    split; [exact Hv|]. split; [lia|].
    destruct (round_nearest_even_cases (q / 2) l') as [H | [H Hl]];
      fold m1 in H.
    + left. exact H.
    + right. split; [exact H|]. right. split; [reflexivity|].
      unfold l' in Hl. cbn [loc_of_shr_record] in Hl.
      rewrite Zmod_odd.
      destruct (Z.odd q); [reflexivity|].
      destruct sticky; destruct Hl; discriminate.
Qed.

Lemma new_location_half (B r : Z) :
  0 < B -> 0 <= r < B ->
  new_location B r = loc_Inexact Eq \/ new_location B r = loc_Inexact Gt ->
  B <= 2 * r.
Proof.
  intros HB Hr. unfold new_location, new_location_even, new_location_odd.
  destruct (Z.even B); destruct (r =? 0) eqn:E0;
    try (intros [H | H]; discriminate H).
  - destruct (Z.compare_spec (2 * r) B) as [Hc | Hc | Hc];
      intros [H | H]; try discriminate H; lia.
  - destruct (Z.compare_spec (2 * r + 1) B) as [Hc | Hc | Hc];
      intros [H | H]; try discriminate H; lia.
Qed.

(** Rounding up never reaches the next integer. *)
Lemma quotient_floor (a b M D K m0 : Z) :
  0 < a -> 0 < b -> 0 < D -> 0 < K ->
  a * (D * K) = b * M ->
  m0 = M / D ->
  a / b = m0 / K.
Proof.
  intros Ha Hb HD HK Heq ->.
  rewrite Z.div_div by lia.
  rewrite <- (Z.div_mul_cancel_r a b (D * K)) by lia.
  rewrite Heq.
  rewrite Z.div_mul_cancel_l by lia. reflexivity.
Qed.

Lemma round_up_same_floor (a b M D K m0 : Z) :
  0 < a -> 0 < b -> 0 < D -> 0 < K ->
  a * (D * K) = b * M ->
  m0 = M / D ->
  D <= 2 * (M mod D) ->
  b < 2 * K ->
  (m0 + 1) / K = m0 / K.
Proof.
  intros Ha Hb HD HK Heq Hm0 Hhalf HbK.
  pose proof (Z.div_mod M D ltac:(lia)) as HM.
  pose proof (Z.mod_pos_bound M D HD) as Hrho.
  rewrite <- Hm0 in HM.
  set (rho := M mod D) in *.
  pose proof (Z.div_mod m0 K ltac:(lia)) as Hm0K.
  pose proof (Z.mod_pos_bound m0 K HK) as Hr0.
  set (t := m0 / K) in *. set (r0 := m0 mod K) in *.
  destruct (Z.eq_dec (r0 + 1) K) as [Hcarry | Hno].
  - exfalso.
    assert (Hm : m0 + 1 = (t + 1) * K) by lia.
    assert (Hid : D * K * (b * (t + 1) - a) = b * (D - rho)).
    { replace (D * K * (b * (t + 1) - a))
        with (b * D * ((t + 1) * K) - a * (D * K)) by ring.
      rewrite <- Hm, Heq, HM. ring. }
    assert (Hpos : 0 < b * (t + 1) - a) by nia.
    assert (D * K <= b * (D - rho)) by nia.
    nia.
  - symmetry. apply Z.div_unique with (r := r0 + 1); lia.
Qed.

Lemma div_eucl_div_mod (a b : Z) : Z.div_eucl a b = (a / b, a mod b).
Proof. unfold Z.div, Z.modulo. destruct (Z.div_eucl a b). reflexivity. Qed.

Lemma trunc_scaled (m E c : Z) :
  0 < m -> c <= 0 -> c <= E ->
  (if 0 <=? E then m * 2 ^ E else m / 2 ^ (- E))
  = (m * 2 ^ (E - c)) / 2 ^ (- c).
Proof.
  intros Hm Hc HE. destruct (0 <=? E) eqn:Esign.
  - apply Z.leb_le in Esign.
    replace (E - c) with (E + - c) by lia.
    rewrite Z.pow_add_r, Z.mul_assoc by lia.
    rewrite Z.div_mul; [reflexivity | apply Z.pow_nonzero; lia].
  - apply Z.leb_gt in Esign.
    replace (- c) with (- E + (E - c)) at 1 by lia.
    rewrite Z.pow_add_r by lia.
    rewrite Z.div_mul_cancel_r; [reflexivity | |];
      apply Z.pow_nonzero; lia.
Qed.

Lemma normal_mantissa_bounds (z : Z) :
  0 < z -> z < 2 ^ 53 ->
  2 ^ 52 <= z * 2 ^ (53 - Zdigits2 z) < 2 ^ 53.
Proof.
  intros Hz Hlt.
  pose proof (normal_mantissa_digits z Hz Hlt) as Hd.
  assert (Hpos : 0 < z * 2 ^ (53 - Zdigits2 z)).
  { pose proof (Zdigits2_le z 53 Hz ltac:(lia) Hlt).
    apply Z.mul_pos_pos; [lia | apply Z.pow_pos_nonneg; lia]. }
  pose proof (Zdigits2_bounds _ Hpos) as Hb. rewrite Hd in Hb.
  exact Hb.
Qed.

Lemma trunc_div_normal (sa sb : bool) (a b : Z) :
  0 < a -> a < 2 ^ 53 -> 0 < b -> b < 2 ^ 53 ->
  Double.trunc (SFdiv Double.prec Double.emax
                  (Double.normal sa a) (Double.normal sb b))
  = Some (cond_Zopp (xorb sa sb) (a / b)).
Proof.
  intros Ha Ha53 Hb Hb53.
  pose proof (Zdigits2_le a 53 Ha ltac:(lia) Ha53) as Hda.
  pose proof (Zdigits2_le b 53 Hb ltac:(lia) Hb53) as Hdb.
  pose proof (Zdigits2_pos _ Ha) as Hda0.
  pose proof (Zdigits2_pos _ Hb) as Hdb0.
  pose proof (normal_mantissa_digits _ Ha Ha53) as HdA.
  pose proof (normal_mantissa_digits _ Hb Hb53) as HdB.
  pose proof (normal_mantissa_bounds _ Ha Ha53) as HA.
  pose proof (normal_mantissa_bounds _ Hb Hb53) as HB.
  pose proof (Zdigits2_bounds b Hb) as [_ Hbd].
  unfold Double.normal. cbn [SFdiv].
  set (da := Zdigits2 a) in *. set (db := Zdigits2 b) in *.
  set (A := a * 2 ^ (53 - da)) in *. set (B := b * 2 ^ (53 - db)) in *.
  rewrite !Z2Pos.id by lia.
  set (M := A * 2 ^ 53).
  assert (Hcore :
    SFdiv_core_binary Double.prec Double.emax A (da - 53) B (db - 53)
    = (M / B, da - db - 53, new_location B (M mod B))).
  { unfold SFdiv_core_binary. rewrite HdA, HdB.
    replace (53 + (da - 53) - (53 + (db - 53))) with (da - db) by lia.
    assert (Hfx : fexp Double.prec Double.emax (da - db) = da - db - 53)
      by (unfold fexp, emin, Double.prec, Double.emax; lia).
    rewrite Hfx.
    replace (Z.min (da - db - 53) (da - 53 - (db - 53))) with (da - db - 53)
      by lia.
    replace (da - 53 - (db - 53) - (da - db - 53)) with 53 by lia.
    rewrite Z.shiftl_mul_pow2 by lia. fold M.
    rewrite div_eucl_div_mod. reflexivity. }
  rewrite Hcore.
  set (q := M / B). set (r := M mod B).
  assert (HM : M = B * q + r) by (apply Z.div_mod; lia).
  assert (Hr : 0 <= r < B) by (apply Z.mod_pos_bound; lia).
  assert (Hq : 2 ^ 52 <= q < 2 ^ 54).
  { unfold q. split.
    - apply Z.div_le_lower_bound; [lia|]. unfold M. nia.
    - apply Z.div_lt_upper_bound; [lia|]. unfold M. nia. }
  destruct (binary_round_aux_quotient (xorb sa sb) q (da - db - 53)
              (new_location B r) Hq ltac:(lia) ltac:(lia))
    as (m & E & m1 & n & Hbra & Hm & Hn & HE & Hm1 & Hm0 & Hround).
  rewrite Hbra. unfold Double.trunc. rewrite Z2Pos.id by assumption.
  f_equal. f_equal.
  set (c := da - db - 53 + n) in *.
  rewrite (trunc_scaled m E c) by lia. rewrite <- Hm1.
  set (K := 2 ^ (- c)). set (D := B * 2 ^ n).
  assert (HK : 0 < K) by (apply Z.pow_pos_nonneg; lia).
  assert (HD : 0 < D)
    by (apply Z.mul_pos_pos; [lia | apply Z.pow_pos_nonneg; lia]).
  assert (Hm0D : q / 2 ^ n = M / D).
  { unfold q, D. rewrite Z.div_div; [reflexivity | lia |].
    apply Z.pow_pos_nonneg; lia. }
  assert (Heq : a * (D * K) = b * M).
  { unfold D, K, M, A, B.
    replace (a * (b * 2 ^ (53 - db) * 2 ^ n * 2 ^ (- c)))
      with (a * b * (2 ^ (53 - db) * 2 ^ n * 2 ^ (- c))) by ring.
    replace (b * (a * 2 ^ (53 - da) * 2 ^ 53))
      with (a * b * (2 ^ (53 - da) * 2 ^ 53)) by ring.
    f_equal. rewrite <- !Z.pow_add_r by lia. f_equal. unfold c. lia. }
  destruct Hround as [Hsame | [Hup Hcause]].
  - rewrite Hsame. symmetry.
    apply (quotient_floor a b M D K); assumption.
  - rewrite Hup.
    rewrite (round_up_same_floor a b M D K (q / 2 ^ n)); try assumption.
    + symmetry. apply (quotient_floor a b M D K); assumption.
    + destruct Hcause as [[-> Hloc] | [-> Hodd]].
      * unfold D. rewrite Z.pow_0_r, Z.mul_1_r.
        apply new_location_half; [lia | assumption | assumption].
      * unfold D. rewrite Z.pow_1_r.
        rewrite Z.rem_mul_r by lia. fold q r. rewrite Hodd. lia.
    + unfold K.
      assert (2 ^ db <= 2 * 2 ^ (- c)).
      { rewrite <- Z.pow_succ_r by lia. apply Z.pow_le_mono_r; lia. }
      lia.
Qed.

Lemma trunc_div_of_Z (a b : Z) :
  Z.abs a < 2 ^ 53 -> 0 < b < 2 ^ 53 ->
  Double.trunc (Double.div (Double.of_Z a) (Double.of_Z b))
  = Some (Z.quot a b).
Proof.
  intros Ha Hb. unfold Double.div. rewrite (of_Z_pos b) by lia.
  destruct a as [|p|p].
  - reflexivity.
  - rewrite (of_Z_pos (Z.pos p)) by lia.
    rewrite trunc_div_normal by lia. cbn [xorb cond_Zopp].
    rewrite Z.quot_div_nonneg by lia. reflexivity.
  - change (Z.neg p) with (- Z.pos p).
    rewrite (of_Z_neg (Z.pos p)) by lia.
    rewrite trunc_div_normal by lia. cbn [xorb cond_Zopp].
    rewrite Z.quot_opp_l, Z.quot_div_nonneg by lia. reflexivity.
Qed.

Lemma pow_nonneg (base n : Z) :
  0 <= n -> Double.pow base n = Double.of_Z (base ^ n).
Proof.
  intros Hn. unfold Double.pow. apply Z.leb_le in Hn. rewrite Hn.
  reflexivity.
Qed.

(** ** Sums, differences and comparisons of integers below [2^53]

    The sum and the difference of two such integers are exact when they
    are below [2^53] themselves, and the comparisons of [double] agree
    with those of the integers. *)

(** [binary_round] of an integer given with a non-positive exponent. *)
Lemma binary_round_integer (s : bool) (p : positive) (e z : Z) :
  0 < z -> z < 2 ^ 53 -> e <= 0 -> -1074 <= e -> Z.pos p = z * 2 ^ (- e) ->
  binary_round Double.prec Double.emax s p e = Double.normal s z.
Proof.
  intros Hz Hlt He Hemin Hp.
  pose proof (Zdigits2_le z 53 Hz ltac:(lia) Hlt) as Hd.
  pose proof (Zdigits2_pos z Hz) as Hd0.
  unfold binary_round.
  change (Z.pos (digits2_pos p)) with (Zdigits2 (Z.pos p)).
  rewrite Hp, Zdigits2_mul_pow2 by lia.
  replace (Zdigits2 z + - e + e) with (Zdigits2 z) by lia.
  rewrite fexp_small by assumption.
  set (d := Zdigits2 z) in *.
  destruct (Z_le_gt_dec (d - 53) e) as [Hle | Hgt].
  - destruct (shl_align_spec p e (d - 53) Hle) as (mz & -> & Hmz).
    rewrite Hmz, Hp.
    replace (z * 2 ^ (- e) * 2 ^ (e - (d - 53))) with (z * 2 ^ (53 - d)).
    2:{ rewrite <- Z.mul_assoc, <- Z.pow_add_r by lia. f_equal. f_equal. lia. }
    pose proof (binary_round_aux_exact s (z * 2 ^ (53 - d)) (d - 53) 0) as H.
    rewrite Z.pow_0_r, Z.mul_1_r, Z.add_0_r in H. apply H.
    + apply Z.mul_pos_pos; [lia | apply Z.pow_pos_nonneg; lia].
    + lia.
    + unfold d. rewrite normal_mantissa_digits by lia. fold d.
      replace (53 + (d - 53)) with d by lia. apply fexp_small. lia.
    + unfold Double.emax, Double.prec. lia.
  - assert (Hal : shl_align p e (d - 53) = (p, e)).
    { unfold shl_align. destruct (d - 53 - e) eqn:E; try reflexivity. lia. }
    rewrite Hal, Hp.
    replace (z * 2 ^ (- e)) with ((z * 2 ^ (53 - d)) * 2 ^ (d - 53 - e)).
    2:{ rewrite <- Z.mul_assoc, <- Z.pow_add_r by lia. f_equal. f_equal. lia. }
    rewrite binary_round_aux_exact.
    + unfold Double.normal. fold d. f_equal. lia.
    + apply Z.mul_pos_pos; [lia | apply Z.pow_pos_nonneg; lia].
    + lia.
    + unfold d. rewrite normal_mantissa_digits by lia. fold d.
      replace (53 + (e + (d - 53 - e))) with d by lia.
      replace (e + (d - 53 - e)) with (d - 53) by lia. apply fexp_small. lia.
    + unfold Double.emax, Double.prec. lia.
Qed.

Lemma binary_normalize_integer (m e z : Z) :
  Z.abs z < 2 ^ 53 -> e <= 0 -> -1074 <= e -> m = z * 2 ^ (- e) ->
  binary_normalize Double.prec Double.emax m e false = Double.of_Z z.
Proof.
  intros Hz He Hemin Hm.
  assert (Hpow : 0 < 2 ^ (- e)) by (apply Z.pow_pos_nonneg; lia).
  destruct z as [|q|q].
  - subst m. reflexivity.
  - rewrite of_Z_pos by lia.
    destruct m as [|p|p]; try lia. cbn [binary_normalize].
    apply binary_round_integer; try lia.
  - change (Z.neg q) with (- Z.pos q). rewrite of_Z_neg by lia.
    destruct m as [|p|p]; try lia. cbn [binary_normalize].
    apply binary_round_integer; try lia.
Qed.

Lemma aligned_mantissa (z ez : Z) :
  0 < z -> z < 2 ^ 53 -> ez <= Zdigits2 z - 53 ->
  Z.pos (fst (shl_align (Z.to_pos (z * 2 ^ (53 - Zdigits2 z)))
                        (Zdigits2 z - 53) ez))
  = z * 2 ^ (- ez).
Proof.
  intros Hz Hlt Hez.
  pose proof (Zdigits2_le z 53 Hz ltac:(lia) Hlt) as Hd.
  destruct (shl_align_spec (Z.to_pos (z * 2 ^ (53 - Zdigits2 z)))
              (Zdigits2 z - 53) ez Hez) as (mz & -> & Hmz).
  cbn [fst]. rewrite Hmz.
  rewrite Z2Pos.id
    by (apply Z.mul_pos_pos; [lia | apply Z.pow_pos_nonneg; lia]).
  rewrite <- Z.mul_assoc, <- Z.pow_add_r by lia. f_equal. f_equal. lia.
Qed.

Lemma add_normal (sa sb : bool) (a b : Z) :
  0 < a -> a < 2 ^ 53 -> 0 < b -> b < 2 ^ 53 ->
  Z.abs (cond_Zopp sa a + cond_Zopp sb b) < 2 ^ 53 ->
  SFadd Double.prec Double.emax (Double.normal sa a) (Double.normal sb b)
  = Double.of_Z (cond_Zopp sa a + cond_Zopp sb b).
Proof.
  intros Ha Ha53 Hb Hb53 Hsum.
  pose proof (Zdigits2_le a 53 Ha ltac:(lia) Ha53).
  pose proof (Zdigits2_le b 53 Hb ltac:(lia) Hb53).
  pose proof (Zdigits2_pos a Ha). pose proof (Zdigits2_pos b Hb).
  unfold Double.normal. cbn [SFadd].
  set (ez := Z.min (Zdigits2 a - 53) (Zdigits2 b - 53)).
  rewrite !aligned_mantissa by (unfold ez; lia).
  apply binary_normalize_integer; try assumption; try (unfold ez; lia).
  destruct sa, sb; cbn [cond_Zopp]; ring.
Qed.

Lemma of_Z_cases (x : Z) :
  Z.abs x < 2 ^ 53 ->
  x = 0
  \/ exists s a, 0 < a /\ a < 2 ^ 53 /\ x = cond_Zopp s a
                 /\ Double.of_Z x = Double.normal s a.
Proof.
  intros Hx. destruct x as [|p|p].
  - left. reflexivity.
  - right. exists false, (Z.pos p). repeat split; try lia.
    apply of_Z_pos; lia.
  - right. exists true, (Z.pos p). repeat split; try lia.
    change (Z.neg p) with (- Z.pos p). apply of_Z_neg; lia.
Qed.

Lemma add_of_Z (x y : Z) :
  Z.abs x < 2 ^ 53 -> Z.abs y < 2 ^ 53 -> Z.abs (x + y) < 2 ^ 53 ->
  Double.add (Double.of_Z x) (Double.of_Z y) = Double.of_Z (x + y).
Proof.
  intros Hx Hy Hxy. unfold Double.add.
  destruct (of_Z_cases x Hx) as [-> | (sx & a & Ha & Ha53 & -> & Hox)];
    destruct (of_Z_cases y Hy) as [-> | (sy & b & Hb & Hb53 & -> & Hoy)].
  - reflexivity.
  - rewrite Z.add_0_l, Hoy. reflexivity.
  - rewrite Z.add_0_r, Hox. reflexivity.
  - rewrite Hox, Hoy. apply add_normal; assumption.
Qed.

Lemma sub_normal (sa sb : bool) (a b : Z) :
  0 < a -> a < 2 ^ 53 -> 0 < b -> b < 2 ^ 53 ->
  Z.abs (cond_Zopp sa a - cond_Zopp sb b) < 2 ^ 53 ->
  SFsub Double.prec Double.emax (Double.normal sa a) (Double.normal sb b)
  = Double.of_Z (cond_Zopp sa a - cond_Zopp sb b).
Proof.
  intros Ha Ha53 Hb Hb53 Hsum.
  pose proof (Zdigits2_le a 53 Ha ltac:(lia) Ha53).
  pose proof (Zdigits2_le b 53 Hb ltac:(lia) Hb53).
  pose proof (Zdigits2_pos a Ha). pose proof (Zdigits2_pos b Hb).
  unfold Double.normal. cbn [SFsub].
  set (ez := Z.min (Zdigits2 a - 53) (Zdigits2 b - 53)).
  rewrite !aligned_mantissa by (unfold ez; lia).
  apply binary_normalize_integer; try assumption; try (unfold ez; lia).
  destruct sa, sb; cbn [cond_Zopp]; ring.
Qed.

Lemma sub_of_Z (x y : Z) :
  Z.abs x < 2 ^ 53 -> Z.abs y < 2 ^ 53 -> Z.abs (x - y) < 2 ^ 53 ->
  Double.sub (Double.of_Z x) (Double.of_Z y) = Double.of_Z (x - y).
Proof.
  intros Hx Hy Hxy. unfold Double.sub.
  destruct (of_Z_cases x Hx) as [-> | (sx & a & Ha & Ha53 & -> & Hox)];
    destruct (of_Z_cases y Hy) as [-> | (sy & b & Hb & Hb53 & -> & Hoy)].
  - reflexivity.
  - rewrite Hoy, of_Z_zero. unfold Double.normal. cbn [SFsub].
    destruct sy; cbn [cond_Zopp negb Z.sub Z.add Z.opp].
    + rewrite Z.opp_involutive. rewrite of_Z_pos by lia. reflexivity.
    + rewrite of_Z_neg by lia. reflexivity.
  - rewrite Z.sub_0_r, Hox. reflexivity.
  - rewrite Hox, Hoy. apply sub_normal; assumption.
Qed.

Lemma compare_normal_pos (a b : Z) :
  0 < a -> a < 2 ^ 53 -> 0 < b -> b < 2 ^ 53 ->
  SFcompare (Double.normal false a) (Double.normal false b) = Some (a ?= b).
Proof.
  intros Ha Ha53 Hb Hb53.
  pose proof (Zdigits2_le a 53 Ha ltac:(lia) Ha53) as Hda.
  pose proof (Zdigits2_le b 53 Hb ltac:(lia) Hb53) as Hdb.
  pose proof (Zdigits2_bounds a Ha) as [Hla Hua].
  pose proof (Zdigits2_bounds b Hb) as [Hlb Hub].
  pose proof (Zdigits2_pos a Ha). pose proof (Zdigits2_pos b Hb).
  unfold Double.normal. cbn [SFcompare]. f_equal.
  set (da := Zdigits2 a) in *. set (db := Zdigits2 b) in *.
  destruct (Z.compare_spec (da - 53) (db - 53)) as [Heq | Hlt | Hgt].
  - assert (da = db) by lia.
    rewrite Pos.compare_cont_spec. cbn [Pos.switch_Eq].
    assert (Hpa : 0 < a * 2 ^ (53 - da))
      by (apply Z.mul_pos_pos; [lia | apply Z.pow_pos_nonneg; lia]).
    assert (Hpb : 0 < b * 2 ^ (53 - db))
      by (apply Z.mul_pos_pos; [lia | apply Z.pow_pos_nonneg; lia]).
    rewrite <- Z2Pos.inj_compare by assumption.
    replace db with da by lia.
    rewrite <- Zmult_compare_compat_r
      by (apply Z.lt_gt, Z.pow_pos_nonneg; lia).
    destruct (a ?= b); reflexivity.
  - symmetry. apply Z.compare_lt_iff.
    assert (2 ^ da <= 2 ^ (db - 1)) by (apply Z.pow_le_mono_r; lia). lia.
  - symmetry. apply Z.compare_gt_iff.
    assert (2 ^ db <= 2 ^ (da - 1)) by (apply Z.pow_le_mono_r; lia). lia.
Qed.

Lemma compare_of_Z (x y : Z) :
  Z.abs x < 2 ^ 53 -> Z.abs y < 2 ^ 53 ->
  SFcompare (Double.of_Z x) (Double.of_Z y) = Some (x ?= y).
Proof.
  intros Hx Hy.
  destruct (of_Z_cases x Hx) as [-> | (sx & a & Ha & Ha53 & -> & Hox)];
    destruct (of_Z_cases y Hy) as [-> | (sy & b & Hb & Hb53 & -> & Hoy)].
  - reflexivity.
  - rewrite Hoy, of_Z_zero. unfold Double.normal. cbn [SFcompare].
    destruct sy; cbn [cond_Zopp]; f_equal; symmetry;
      [apply Z.compare_gt_iff | apply Z.compare_lt_iff]; lia.
  - rewrite Hox, of_Z_zero. unfold Double.normal. cbn [SFcompare].
    destruct sx; cbn [cond_Zopp]; f_equal; symmetry;
      [apply Z.compare_lt_iff | apply Z.compare_gt_iff]; lia.
  - rewrite Hox, Hoy. destruct sx, sy; cbn [cond_Zopp].
    + (* both negative *)
      pose proof (compare_normal_pos a b Ha Ha53 Hb Hb53) as Hc.
      unfold Double.normal in *. cbn [SFcompare] in *.
      rewrite Z.compare_opp, (Z.compare_antisym a b).
      destruct (Zdigits2 a - 53 ?= Zdigits2 b - 53);
        injection Hc as Hc; rewrite <- Hc; reflexivity.
    + unfold Double.normal. cbn [SFcompare]. f_equal. symmetry.
      apply Z.compare_lt_iff. lia.
    + unfold Double.normal. cbn [SFcompare]. f_equal. symmetry.
      apply Z.compare_gt_iff. lia.
    + apply compare_normal_pos; assumption.
Qed.

Lemma ltb_of_Z (x y : Z) :
  Z.abs x < 2 ^ 53 -> Z.abs y < 2 ^ 53 ->
  Double.ltb (Double.of_Z x) (Double.of_Z y) = (x <? y).
Proof.
  intros Hx Hy. unfold Double.ltb, SFltb, Z.ltb.
  rewrite compare_of_Z by assumption. reflexivity.
Qed.

Lemma gtb_of_Z (x y : Z) :
  Z.abs x < 2 ^ 53 -> Z.abs y < 2 ^ 53 ->
  Double.gtb (Double.of_Z x) (Double.of_Z y) = (x >? y).
Proof.
  intros Hx Hy. unfold Double.gtb. rewrite Z.gtb_ltb.
  apply ltb_of_Z; assumption.
Qed.

Lemma eqb_of_Z (x y : Z) :
  Z.abs x < 2 ^ 53 -> Z.abs y < 2 ^ 53 ->
  Double.eqb (Double.of_Z x) (Double.of_Z y) = (x =? y).
Proof.
  intros Hx Hy. unfold Double.eqb, SFeqb.
  rewrite compare_of_Z by assumption.
  destruct (Z.eqb_spec x y) as [-> | Hne].
  - rewrite Z.compare_refl. reflexivity.
  - destruct (Z.compare_spec x y); [contradiction | reflexivity ..].
Qed.

Lemma add_comm (x y : double) : Double.add x y = Double.add y x.
Proof.
  unfold Double.add.
  destruct x as [sx | sx | | sx mx ex], y as [sy | sy | | sy my ey];
    try reflexivity.
  - destruct sx, sy; reflexivity.
  - destruct sx, sy; reflexivity.
  - cbn [SFadd]. rewrite (Z.min_comm ey ex). f_equal. apply Z.add_comm.
Qed.

Lemma to_int_of_Z_out (bits z : Z) :
  Z.abs z < 2 ^ 53 -> Int.in_rangeb bits z = false ->
  Double.to_int bits (Double.of_Z z) = None.
Proof.
  intros Hz Hr. unfold Double.to_int. rewrite trunc_of_Z by assumption.
  rewrite Hr. reflexivity.
Qed.

Lemma to_int_of_Z_cases (bits z : Z) :
  Z.abs z < 2 ^ 53 ->
  Double.to_int bits (Double.of_Z z)
  = if Int.in_rangeb bits z then Some z else None.
Proof.
  intros Hz. unfold Double.to_int. rewrite trunc_of_Z by assumption.
  reflexivity.
Qed.

End DoubleFacts.

(** ** The shift helpers *)

Module ShiftFacts.

Lemma radix_pos (Rad : Radix) : 0 < radix_value Rad.
Proof. destruct Rad; reflexivity. Qed.

Lemma radix_pow_pos (Rad : Radix) (n : Z) :
  0 <= n -> 0 < radix_value Rad ^ n.
Proof. intros Hn. apply Z.pow_pos_nonneg; [apply radix_pos | exact Hn]. Qed.

Lemma shift_nonneg (Rad : Radix) (val : double) (scale : scale_type) :
  0 <= scale ->
  detail.shift Rad val scale
  = Double.div val (Double.pow (radix_value Rad) scale).
Proof.
  intros Hs. unfold detail.shift, detail.right_shift.
  destruct (scale >=? 0) eqn:E; [reflexivity | lia].
Qed.

Lemma shift_neg (Rad : Radix) (val : double) (scale : scale_type) :
  negatable scale -> scale < 0 ->
  detail.shift Rad val scale
  = Double.mul val (Double.pow (radix_value Rad) (- scale)).
Proof.
  intros Hn Hs. unfold detail.shift, detail.left_shift.
  destruct (scale >=? 0) eqn:E; [lia |].
  rewrite IntFacts.negate_small by assumption. reflexivity.
Qed.

(** Dividing a multiple of [Radix^scale] is exact. *)
Lemma shift_nonneg_exact (Rad : Radix) (u : Z) (scale : scale_type) :
  0 <= scale ->
  radix_value Rad ^ scale < 2 ^ 53 ->
  Z.abs (u * radix_value Rad ^ scale) < 2 ^ 53 ->
  detail.shift Rad (Double.of_Z (u * radix_value Rad ^ scale)) scale
  = Double.of_Z u.
Proof.
  intros Hs Hp Hu. rewrite shift_nonneg, DoubleFacts.pow_nonneg by assumption.
  apply DoubleFacts.div_of_Z; [|assumption].
  pose proof (radix_pow_pos Rad scale Hs). lia.
Qed.

(** Multiplying by [Radix^(-scale)] is exact below [2^53]. *)
Lemma shift_neg_exact (Rad : Radix) (u : Z) (scale : scale_type) :
  negatable scale -> scale < 0 ->
  radix_value Rad ^ (- scale) < 2 ^ 53 ->
  Z.abs (u * radix_value Rad ^ (- scale)) < 2 ^ 53 ->
  detail.shift Rad (Double.of_Z u) scale
  = Double.of_Z (u * radix_value Rad ^ (- scale)).
Proof.
  intros Hn Hs Hp Hu.
  rewrite shift_neg, DoubleFacts.pow_nonneg by (assumption || lia).
  apply DoubleFacts.mul_of_Z; [|assumption].
  pose proof (radix_pow_pos Rad (- scale) ltac:(lia)). lia.
Qed.

Lemma abs_factor_le (q p : Z) : 0 < p -> Z.abs q <= Z.abs (q * p).
Proof.
  intros Hp. rewrite Z.abs_mul, (Z.abs_eq p) by lia.
  pose proof (Z.abs_nonneg q). nia.
Qed.

Lemma in_range_factor (bits q p : Z) :
  0 < bits -> 0 < p -> Int.in_range bits (q * p) -> Int.in_range bits q.
Proof.
  unfold Int.in_range, Int.min_signed, Int.max_signed. intros Hb Hp H.
  assert (0 < 2 ^ (bits - 1)) by (apply Z.pow_pos_nonneg; lia). nia.
Qed.

(** A non-zero multiple of a positive number bounds that number. *)
Lemma factor_bound (u p : Z) :
  0 < p -> u <> 0 -> Z.abs (u * p) < 2 ^ 53 -> p < 2 ^ 53.
Proof. intros Hp Hu H. nia. Qed.

Lemma in_range_quot (bits u p : Z) :
  0 < bits -> 0 < p -> Int.in_range bits u -> Int.in_range bits (Z.quot u p).
Proof.
  unfold Int.in_range, Int.min_signed, Int.max_signed. intros Hb Hp Hu.
  assert (0 < 2 ^ (bits - 1)) by (apply Z.pow_pos_nonneg; lia).
  pose proof (Z.quot_rem' u p) as Hqr.
  pose proof (Z.rem_bound_abs u p ltac:(lia)) as Hrem.
  pose proof (Z.rem_sign_mul u p ltac:(lia)) as Hsgn.
  nia.
Qed.

(** Dividing by [Radix^scale] and truncating gives the integer quotient. *)
Lemma shift_nonneg_trunc (Rad : Radix) (v : Z) (scale : scale_type) :
  0 <= scale ->
  radix_value Rad ^ scale < 2 ^ 53 ->
  Z.abs v < 2 ^ 53 ->
  Double.trunc (detail.shift Rad (Double.of_Z v) scale)
  = Some (Z.quot v (radix_value Rad ^ scale)).
Proof.
  intros Hs Hp Hv. rewrite shift_nonneg, DoubleFacts.pow_nonneg by assumption.
  apply DoubleFacts.trunc_div_of_Z; [assumption|].
  pose proof (radix_pow_pos Rad scale Hs). lia.
Qed.

Lemma shift_nonneg_to_int (Rad : Radix) (bits v : Z) (scale : scale_type) :
  0 < bits -> 0 <= scale ->
  radix_value Rad ^ scale < 2 ^ 53 ->
  Z.abs v < 2 ^ 53 ->
  Int.in_range bits v ->
  Double.to_int bits (detail.shift Rad (Double.of_Z v) scale)
  = Some (Z.quot v (radix_value Rad ^ scale)).
Proof.
  intros Hb Hs Hp Hv Hr. unfold Double.to_int.
  rewrite shift_nonneg_trunc by assumption.
  pose proof (in_range_quot bits v (radix_value Rad ^ scale) Hb
                (radix_pow_pos Rad scale Hs) Hr) as Hq.
  apply IntFacts.in_rangeb_spec in Hq. rewrite Hq. reflexivity.
Qed.

(** A bounded power of the radix has a bounded exponent. *)
Lemma radix_pow_exponent (Rad : Radix) (n k : Z) :
  0 <= n -> 0 <= k -> radix_value Rad ^ n < 2 ^ k -> n < k.
Proof.
  intros Hn Hk Hlt.
  assert (2 ^ n <= radix_value Rad ^ n)
    by (apply Z.pow_le_mono_l; destruct Rad; cbn; lia).
  apply (Z.pow_lt_mono_r_iff 2); lia.
Qed.

(** *** Powers that stay finite *)

Lemma all_below_spec (f : Z -> bool) (n : nat) :
  all_below f n = true ->
  forall z, 0 <= z < Z.of_nat n -> f z = true.
Proof.
  induction n as [|k IH]; intros Hall z Hz; [lia|].
  cbn [all_below] in Hall. apply andb_true_iff in Hall.
  destruct Hall as [Hk Hrest].
  destruct (Z.eq_dec z (Z.of_nat k)) as [-> | Hne]; [exact Hk|].
  apply IH; [exact Hrest | lia].
Qed.

Lemma pow_2_finite :
  all_below (fun n => finite_positive (Double.pow 2 n)) 1024 = true.
Proof. vm_compute. reflexivity. Qed.

Lemma pow_10_finite :
  all_below (fun n => finite_positive (Double.pow 10 n)) 309 = true.
Proof. vm_compute. reflexivity. Qed.

Lemma pow_finite (Rad : Radix) (n : Z) :
  0 <= n -> radix_value Rad ^ n < 2 ^ 1024 ->
  finite_positive (Double.pow (radix_value Rad) n) = true.
Proof.
  intros Hn Hlt. destruct Rad; cbn [radix_value] in *.
  - apply (all_below_spec _ 1024 pow_2_finite).
    apply Z.pow_lt_mono_r_iff in Hlt; lia.
  - apply (all_below_spec _ 309 pow_10_finite).
    destruct (Z_lt_ge_dec n 309) as [Hsmall | Hbig]; [lia | exfalso].
    assert (10 ^ 309 <= 10 ^ n) by (apply Z.pow_le_mono_r; lia).
    assert (2 ^ 1024 < 10 ^ 309) by reflexivity.
    lia.
Qed.

Lemma zero_div_finite (x : double) :
  finite_positive x = true ->
  Double.div (S754_zero false) x = S754_zero false.
Proof. destruct x as [| | |[] m e]; try discriminate. reflexivity. Qed.

Lemma zero_mul_finite (x : double) :
  finite_positive x = true ->
  Double.mul (S754_zero false) x = S754_zero false.
Proof. destruct x as [| | |[] m e]; try discriminate. reflexivity. Qed.

(** Zero stays zero at every scale whose power of the radix is finite. *)
Lemma shift_zero (Rad : Radix) (scale : scale_type) :
  Int.min_signed 32 < scale <= - Int.min_signed 32 ->
  radix_value Rad ^ Z.abs scale < 2 ^ 1024 ->
  detail.shift Rad (Double.of_Z 0) scale = Double.of_Z 0.
Proof.
  intros Hs Hp. rewrite DoubleFacts.of_Z_zero.
  unfold detail.shift, detail.right_shift, detail.left_shift.
  destruct (scale >=? 0) eqn:E.
  - rewrite Z.abs_eq in Hp by lia.
    apply zero_div_finite, pow_finite; [lia | assumption].
  - assert (Hneg : detail.negate scale = - scale).
    { unfold detail.negate. rewrite IntFacts.wrap_small; [lia | lia |].
      unfold Int.in_range, Int.min_signed, Int.max_signed in *. lia. }
    rewrite Hneg. rewrite Z.abs_neq in Hp by lia.
    apply zero_mul_finite, pow_finite; [lia | assumption].
Qed.

(** Shifting by the negated scale multiplies by [Radix^scale]. *)
Lemma unshift_exact (Rad : Radix) (u : Z) (scale : scale_type) :
  0 <= scale ->
  radix_value Rad ^ scale < 2 ^ 53 ->
  Z.abs (u * radix_value Rad ^ scale) < 2 ^ 53 ->
  detail.shift Rad (Double.of_Z u) (detail.negate scale)
  = Double.of_Z (u * radix_value Rad ^ scale).
Proof.
  intros Hs Hp Hu.
  pose proof (radix_pow_exponent Rad scale 53 Hs ltac:(lia) Hp) as Hlt.
  assert (Hn : negatable scale)
    by (unfold negatable, Int.min_signed, Int.max_signed; lia).
  rewrite (IntFacts.negate_small scale Hn).
  destruct (Z.eq_dec scale 0) as [-> | Hnz].
  - change (- 0) with 0. rewrite Z.pow_0_r, Z.mul_1_r in *.
    rewrite <- (Z.mul_1_r u) at 1. rewrite <- (Z.pow_0_r (radix_value Rad)).
    apply shift_nonneg_exact; rewrite ?Z.pow_0_r, ?Z.mul_1_r; lia.
  - rewrite shift_neg_exact; rewrite ?Z.opp_involutive;
      try assumption; try lia; [reflexivity|].
    unfold negatable, Int.min_signed, Int.max_signed. lia.
Qed.

(** Removing the remainder moves a number toward zero, never past it. *)
Lemma rem_between (v p : Z) :
  0 < p -> 0 <= v - Z.rem v p <= v \/ v <= v - Z.rem v p <= 0.
Proof.
  intros Hp. destruct (Z_le_gt_dec 0 v) as [Hv | Hv].
  - left. pose proof (Z.rem_bound_pos v p Hv Hp).
    pose proof (Z.rem_le v p Hv Hp). lia.
  - right. replace v with (- - v) by lia.
    rewrite Z.rem_opp_l by lia.
    pose proof (Z.rem_bound_pos (- v) p ltac:(lia) Hp).
    pose proof (Z.rem_le (- v) p ltac:(lia) Hp). lia.
Qed.

End ShiftFacts.

(** ** The overflow predicates on operands of type [Rep] *)

Module OverflowFacts.

Lemma quot_pos_pos (M r l : Z) :
  0 <= M -> 0 < r -> (Z.quot M r < l <-> M < l * r).
Proof.
  intros HM Hr. pose proof (Z.quot_rem' M r).
  pose proof (Z.rem_bound_pos_pos M r Hr HM). split; intros; nia.
Qed.

Lemma quot_neg_pos (m r l : Z) :
  m <= 0 -> 0 < r -> (l < Z.quot m r <-> l * r < m).
Proof.
  intros Hm Hr. pose proof (Z.quot_rem' m r).
  pose proof (Z.rem_bound_pos_neg m r Hr Hm). split; intros; nia.
Qed.

Lemma quot_neg_neg (m r l : Z) :
  m <= 0 -> r < 0 -> (Z.quot m r < l <-> l * r < m).
Proof.
  intros Hm Hr. pose proof (Z.quot_rem' m r).
  pose proof (Z.rem_bound_neg_neg m r Hr Hm). split; intros; nia.
Qed.

Lemma quot_pos_neg (M r l : Z) :
  0 <= M -> r < 0 -> (l < Z.quot M r <-> M < l * r).
Proof.
  intros HM Hr. pose proof (Z.quot_rem' M r).
  pose proof (Z.rem_bound_neg_pos M r Hr HM). split; intros; nia.
Qed.

Lemma quot_abs_le (a b : Z) : b <> 0 -> Z.abs (Z.quot a b) <= Z.abs a.
Proof.
  intros Hb. pose proof (Z.quot_rem' a b).
  pose proof (Z.rem_bound_abs a b Hb).
  pose proof (Z.rem_sign_mul a b Hb). nia.
Qed.

(** Bounds of [Rep] and of its promoted type as numerals. *)
Ltac limits :=
  cbv [numeric_limits_max numeric_limits_min Int.in_range Int.max_signed
       Int.min_signed bits promoted_bits] in *;
  repeat match goal with
         | |- context [Z.max ?a ?b] =>
             let v := eval vm_compute in (Z.max a b) in
             change (Z.max a b) with v
         | H : context [Z.max ?a ?b] |- _ =>
             let v := eval vm_compute in (Z.max a b) in
             change (Z.max a b) with v in H
         end;
  repeat match goal with
         | |- context [2 ^ ?a] =>
             let v := eval vm_compute in (2 ^ a) in
             change (2 ^ a) with v
         | H : context [2 ^ ?a] |- _ =>
             let v := eval vm_compute in (2 ^ a) in
             change (2 ^ a) with v in H
         end.

Lemma limits_sum (r : Rep) :
  numeric_limits_min r = - numeric_limits_max r - 1 /\
  0 < numeric_limits_max r /\
  Int.max_signed (promoted_bits r) >= numeric_limits_max r.
Proof. destruct r; limits; lia. Qed.

Section Exactness.

Variable rep : Rep.
Variables lhs rhs : Z.
Hypothesis Hlhs : Int.in_range (bits rep) lhs.
Hypothesis Hrhs : Int.in_range (bits rep) rhs.

Lemma addition_overflow_spec :
  addition_overflow (A := rep_arithmetic rep) rep lhs rhs = true
  <-> ~ Int.in_range (bits rep) (lhs + rhs).
Proof.
  unfold addition_overflow. cbn [rep_arithmetic t_gt t_lt t_sub lit].
  destruct (rhs >? 0) eqn:E.
  - rewrite IntFacts.wrap_small;
      [| apply IntFacts.promoted_bits_pos | destruct rep; limits; lia].
    destruct rep; limits; lia.
  - rewrite IntFacts.wrap_small;
      [| apply IntFacts.promoted_bits_pos | destruct rep; limits; lia].
    destruct rep; limits; lia.
Qed.

Lemma subtraction_overflow_spec :
  subtraction_overflow (A := rep_arithmetic rep) rep lhs rhs = true
  <-> ~ Int.in_range (bits rep) (lhs - rhs).
Proof.
  unfold subtraction_overflow. cbn [rep_arithmetic t_gt t_lt t_add lit].
  destruct (rhs >? 0) eqn:E.
  - rewrite IntFacts.wrap_small;
      [| apply IntFacts.promoted_bits_pos | destruct rep; limits; lia].
    destruct rep; limits; lia.
  - rewrite IntFacts.wrap_small;
      [| apply IntFacts.promoted_bits_pos | destruct rep; limits; lia].
    destruct rep; limits; lia.
Qed.

Lemma division_overflow_iff :
  division_overflow (A := rep_arithmetic rep) rep lhs rhs = true
  <-> lhs = numeric_limits_min rep /\ rhs = -1.
Proof.
  unfold division_overflow. cbn [rep_arithmetic t_eq lit].
  rewrite andb_true_iff, !Z.eqb_eq. tauto.
Qed.

Lemma division_overflow_spec :
  rhs <> 0 ->
  (division_overflow (A := rep_arithmetic rep) rep lhs rhs = true
   <-> ~ Int.in_range (bits rep) (Z.quot lhs rhs)).
Proof.
  intros Hnz. rewrite division_overflow_iff.
  pose proof (quot_abs_le lhs rhs Hnz) as Habs.
  pose proof (Z.quot_rem' lhs rhs) as Hqr.
  pose proof (Z.rem_bound_abs lhs rhs Hnz) as Hrem.
  pose proof (Z.rem_sign_mul lhs rhs Hnz) as Hsgn.
  split.
  - intros [-> ->]. destruct rep; vm_compute; intros [H1 H2];
      apply H2; reflexivity.
  - intros Hout.
    assert (Hq : Z.quot lhs rhs = - numeric_limits_min rep)
      by (destruct rep; limits; lia).
    destruct rep; limits; nia.
Qed.

Lemma quot_limit_promoted (limit : Z) :
  Int.in_range (bits rep) limit -> 0 < rhs \/ rhs < -1 ->
  Int.wrap (promoted_bits rep) (Z.quot limit rhs) = Z.quot limit rhs.
Proof.
  intros Hl Hr. assert (Hnz : rhs <> 0) by lia.
  apply IntFacts.wrap_small.
  - apply IntFacts.promoted_bits_pos.
  - pose proof (quot_abs_le limit rhs Hnz) as Habs.
    destruct (Z.eq_dec limit (numeric_limits_min rep)) as [-> | Hmin].
    + pose proof (Z.quot_rem' (numeric_limits_min rep) rhs) as Hqr.
      pose proof (Z.rem_bound_abs (numeric_limits_min rep) rhs Hnz).
      pose proof (Z.rem_sign_mul (numeric_limits_min rep) rhs Hnz).
      destruct rep; limits; nia.
    + destruct rep; limits; lia.
Qed.

Lemma multiplication_overflow_spec :
  multiplication_overflow (A := rep_arithmetic rep) rep lhs rhs = true
  <-> ~ Int.in_range (bits rep) (lhs * rhs).
Proof.
  pose proof (limits_sum rep) as (Hmin & Hmax & _).
  assert (Hmn : Int.in_range (bits rep) (numeric_limits_min rep))
    by (destruct rep; limits; lia).
  assert (Hmx : Int.in_range (bits rep) (numeric_limits_max rep))
    by (destruct rep; limits; lia).
  unfold multiplication_overflow.
  cbn [rep_arithmetic t_gt t_lt t_div t_eq lit].
  destruct (rhs >? 0) eqn:Epos.
  - apply Z.gtb_lt in Epos.
    rewrite !quot_limit_promoted by (assumption || lia).
    rewrite orb_true_iff, Z.gtb_lt, Z.ltb_lt.
    rewrite quot_pos_pos, quot_neg_pos by lia.
    unfold Int.in_range. fold (numeric_limits_min rep).
    fold (numeric_limits_max rep). lia.
  - destruct (rhs <? -1) eqn:Eneg.
    + apply Z.ltb_lt in Eneg.
      rewrite !quot_limit_promoted by (assumption || lia).
      rewrite orb_true_iff, Z.gtb_lt, Z.ltb_lt.
      rewrite quot_neg_neg, quot_pos_neg by lia.
      unfold Int.in_range. fold (numeric_limits_min rep).
      fold (numeric_limits_max rep). lia.
    + apply Z.ltb_ge in Eneg.
      assert (Hle : rhs <= 0) by (destruct (Z.gtb_spec rhs 0); lia).
      rewrite andb_true_iff, !Z.eqb_eq.
      unfold Int.in_range. fold (numeric_limits_min rep).
      fold (numeric_limits_max rep).
      assert (Hl : numeric_limits_min rep <= lhs <= numeric_limits_max rep)
        by exact Hlhs.
      assert (Hcases : rhs = 0 \/ rhs = -1) by lia.
      destruct Hcases as [-> | ->]; lia.
Qed.

End Exactness.

(** *** The predicates as [operator+] and [operator-] call them

    The additive operators pass aligned operands of type [double].  On a
    representation type of at most 32 bits every quantity involved is an
    integer below [2^53], so the predicates on [double] agree with those
    on [Rep]. *)

Lemma bool_eq_iff (b1 b2 : bool) : (b1 = true <-> b2 = true) -> b1 = b2.
Proof. destruct b1, b2; intros [H1 H2]; auto; symmetry; auto. Qed.

Lemma small_rep_bound (rep : Rep) (x : Z) :
  bits rep <= 32 -> Int.in_range (bits rep) x -> Z.abs x <= 2 ^ 31.
Proof.
  intros Hb Hx. destruct rep; cbn in Hb; try lia; limits; lia.
Qed.

Lemma addition_overflow_double (rep : Rep) (a b : Z) :
  bits rep <= 32 ->
  Int.in_range (bits rep) a -> Int.in_range (bits rep) b ->
  addition_overflow (A := double_arithmetic) rep
                    (Double.of_Z a) (Double.of_Z b)
  = addition_overflow (A := rep_arithmetic rep) rep a b.
Proof.
  intros Hb Ha Hb'.
  pose proof (small_rep_bound rep a Hb Ha).
  pose proof (small_rep_bound rep b Hb Hb').
  assert (Hmax : Z.abs (numeric_limits_max rep) <= 2 ^ 31)
    by (destruct rep; cbn in Hb; try lia; limits; lia).
  assert (Hmin : Z.abs (numeric_limits_min rep) <= 2 ^ 31)
    by (destruct rep; cbn in Hb; try lia; limits; lia).
  assert (Hp : promoted_bits rep = 32)
    by (destruct rep; cbn in Hb; try lia; reflexivity).
  unfold addition_overflow.
  cbn [double_arithmetic rep_arithmetic t_gt t_lt t_sub lit].
  rewrite DoubleFacts.gtb_of_Z by (cbn; lia).
  rewrite !DoubleFacts.sub_of_Z by lia.
  rewrite DoubleFacts.gtb_of_Z, DoubleFacts.ltb_of_Z by lia.
  rewrite Hp.
  destruct (b >? 0) eqn:E.
  - rewrite IntFacts.wrap_small; [reflexivity | lia |].
    destruct rep; cbn in Hb; try lia; limits; lia.
  - rewrite IntFacts.wrap_small; [reflexivity | lia |].
    destruct rep; cbn in Hb; try lia; limits; lia.
Qed.

Lemma subtraction_overflow_double (rep : Rep) (a b : Z) :
  bits rep <= 32 ->
  Int.in_range (bits rep) a -> Int.in_range (bits rep) b ->
  subtraction_overflow (A := double_arithmetic) rep
                       (Double.of_Z a) (Double.of_Z b)
  = subtraction_overflow (A := rep_arithmetic rep) rep a b.
Proof.
  intros Hb Ha Hb'.
  pose proof (small_rep_bound rep a Hb Ha).
  pose proof (small_rep_bound rep b Hb Hb').
  assert (Hmax : Z.abs (numeric_limits_max rep) <= 2 ^ 31)
    by (destruct rep; cbn in Hb; try lia; limits; lia).
  assert (Hmin : Z.abs (numeric_limits_min rep) <= 2 ^ 31)
    by (destruct rep; cbn in Hb; try lia; limits; lia).
  assert (Hp : promoted_bits rep = 32)
    by (destruct rep; cbn in Hb; try lia; reflexivity).
  unfold subtraction_overflow.
  cbn [double_arithmetic rep_arithmetic t_gt t_lt t_add lit].
  rewrite DoubleFacts.gtb_of_Z by (cbn; lia).
  rewrite !DoubleFacts.add_of_Z by lia.
  rewrite DoubleFacts.gtb_of_Z, DoubleFacts.ltb_of_Z by lia.
  rewrite Hp.
  destruct (b >? 0) eqn:E.
  - rewrite IntFacts.wrap_small; [reflexivity | lia |].
    destruct rep; cbn in Hb; try lia; limits; lia.
  - rewrite IntFacts.wrap_small; [reflexivity | lia |].
    destruct rep; cbn in Hb; try lia; limits; lia.
Qed.

Lemma addition_overflow_double_spec (rep : Rep) (a b : Z) :
  bits rep <= 32 ->
  Int.in_range (bits rep) a -> Int.in_range (bits rep) b ->
  addition_overflow (A := double_arithmetic) rep
                    (Double.of_Z a) (Double.of_Z b)
  = negb (Int.in_rangeb (bits rep) (a + b)).
Proof.
  intros Hb Ha Hb'. rewrite addition_overflow_double by assumption.
  apply bool_eq_iff.
  rewrite addition_overflow_spec by assumption.
  rewrite negb_true_iff. symmetry. apply IntFacts.in_rangeb_false.
Qed.

Lemma subtraction_overflow_double_spec (rep : Rep) (a b : Z) :
  bits rep <= 32 ->
  Int.in_range (bits rep) a -> Int.in_range (bits rep) b ->
  subtraction_overflow (A := double_arithmetic) rep
                       (Double.of_Z a) (Double.of_Z b)
  = negb (Int.in_rangeb (bits rep) (a - b)).
Proof.
  intros Hb Ha Hb'. rewrite subtraction_overflow_double by assumption.
  apply bool_eq_iff.
  rewrite subtraction_overflow_spec by assumption.
  rewrite negb_true_iff. symmetry. apply IntFacts.in_rangeb_false.
Qed.

Lemma multiplication_overflow_rep (rep : Rep) (a b : Z) :
  Int.in_range (bits rep) a -> Int.in_range (bits rep) b ->
  multiplication_overflow (A := rep_arithmetic rep) rep a b
  = negb (Int.in_rangeb (bits rep) (a * b)).
Proof.
  intros Ha Hb. apply bool_eq_iff.
  rewrite multiplication_overflow_spec by assumption.
  rewrite negb_true_iff. symmetry. apply IntFacts.in_rangeb_false.
Qed.

(** *** The division

    Apart from the least value divided by -1, the quotient of two [Rep]
    values is a [Rep] value, and the operator returns it. *)

Lemma quot_in_range (rep : Rep) (lhs rhs : Z) :
  Int.in_range (bits rep) lhs -> Int.in_range (bits rep) rhs ->
  rhs <> 0 ->
  ~ (lhs = numeric_limits_min rep /\ rhs = -1) ->
  Int.in_range (bits rep) (Z.quot lhs rhs).
Proof.
  intros Hl Hr Hnz Hpair.
  destruct (Int.in_rangeb (bits rep) (Z.quot lhs rhs)) eqn:E.
  - apply IntFacts.in_rangeb_spec, E.
  - exfalso. apply IntFacts.in_rangeb_false in E.
    apply (division_overflow_spec rep lhs rhs Hl Hr Hnz) in E.
    apply division_overflow_iff in E; [contradiction | assumption ..].
Qed.

Lemma divides_in_range (rep : Rep) (debug : bool) (lhs rhs : fixed_point) :
  _value rhs <> 0 ->
  ~ (_value lhs = numeric_limits_min rep /\ _value rhs = -1) ->
  Int.in_range (bits rep) (Z.quot (_value lhs) (_value rhs)) ->
  operator_divides rep debug lhs rhs
  = Done {| _scale := Int.wrap 32 (_scale lhs - _scale rhs);
            _value := Z.quot (_value lhs) (_value rhs) |}.
Proof.
  intros Hnz Hpair Hq. unfold operator_divides, from_scaled, narrow.
  cbn [value scale].
  assert (Hno : division_overflow (A := rep_arithmetic rep) rep
                  (_value lhs) (_value rhs) = false).
  { unfold division_overflow. cbn [rep_arithmetic t_eq lit].
    apply andb_false_iff.
    destruct (Z.eqb_spec (_value lhs) (numeric_limits_min rep));
      destruct (Z.eqb_spec (_value rhs) (-1)); auto.
    exfalso. apply Hpair. split; assumption. }
  rewrite Hno, andb_false_r.
  apply Z.eqb_neq in Hnz. rewrite Hnz.
  rewrite (IntFacts.in_rangeb_promoted rep) by assumption. cbn [negb].
  rewrite (IntFacts.wrap_small (bits rep))
    by (apply IntFacts.bits_pos || assumption).
  reflexivity.
Qed.

End OverflowFacts.

(** ** Aligned operands of [operator+] and [operator-], and [get()] *)

Module AlignFacts.

Lemma result_scale_max (lhs rhs : fixed_point) :
  result_scale lhs rhs = Z.max (_scale lhs) (_scale rhs).
Proof.
  unfold result_scale. destruct (Z.gtb_spec (_scale lhs) (_scale rhs)); lia.
Qed.

(** Aligning by a difference of scales [d] that divides the raw value. *)
Lemma shift_by_difference (Rad : Radix) (v d : Z) :
  0 <= d ->
  radix_value Rad ^ d < 2 ^ 53 ->
  Z.abs v < 2 ^ 53 ->
  Z.rem v (radix_value Rad ^ d) = 0 ->
  detail.shift Rad (Double.of_Z v) (Int.wrap 32 d)
  = Double.of_Z (Z.quot v (radix_value Rad ^ d)).
Proof.
  intros Hd Hp Hv Hrem.
  pose proof (ShiftFacts.radix_pow_exponent Rad d 53 Hd ltac:(lia) Hp) as Hlt.
  rewrite IntFacts.wrap_small
    by (unfold Int.in_range, Int.min_signed, Int.max_signed; lia).
  pose proof (Z.quot_rem' v (radix_value Rad ^ d)) as Hqr.
  rewrite Hrem, Z.add_0_r, Z.mul_comm in Hqr.
  rewrite Hqr at 1.
  apply ShiftFacts.shift_nonneg_exact; [assumption | assumption |].
  rewrite <- Hqr. assumption.
Qed.

Lemma aligned_lhs_exact (Rad : Radix) (lhs rhs : fixed_point) :
  let s := Z.max (_scale lhs) (_scale rhs) in
  aligns_exactly Rad lhs s = true ->
  Z.abs (_value lhs) < 2 ^ 53 ->
  radix_value Rad ^ (s - _scale lhs) < 2 ^ 53 ->
  aligned_lhs Rad lhs rhs = Double.of_Z (aligned_raw Rad lhs s).
Proof.
  intros s Hex Hv Hp. subst s.
  unfold aligns_exactly in Hex. apply Z.eqb_eq in Hex.
  unfold aligned_lhs, aligned_raw.
  destruct (Z.ltb_spec (_scale lhs) (_scale rhs)) as [Hlt | Hge].
  - rewrite Z.max_r in * by lia.
    apply shift_by_difference; (assumption || lia).
  - rewrite Z.max_l by lia. rewrite Z.sub_diag, Z.pow_0_r, Z.quot_1_r.
    reflexivity.
Qed.

Lemma aligned_rhs_exact (Rad : Radix) (lhs rhs : fixed_point) :
  let s := Z.max (_scale lhs) (_scale rhs) in
  aligns_exactly Rad rhs s = true ->
  Z.abs (_value rhs) < 2 ^ 53 ->
  radix_value Rad ^ (s - _scale rhs) < 2 ^ 53 ->
  aligned_rhs Rad lhs rhs = Double.of_Z (aligned_raw Rad rhs s).
Proof.
  intros s Hex Hv Hp. subst s.
  unfold aligns_exactly in Hex. apply Z.eqb_eq in Hex.
  unfold aligned_rhs, aligned_raw.
  destruct (Z.gtb_spec (_scale lhs) (_scale rhs)) as [Hlt | Hge].
  - rewrite Z.max_l in * by lia.
    apply shift_by_difference; (assumption || lia).
  - rewrite Z.max_r by lia. rewrite Z.sub_diag, Z.pow_0_r, Z.quot_1_r.
    reflexivity.
Qed.

Lemma aligned_raw_abs (Rad : Radix) (x : fixed_point) (s : scale_type) :
  _scale x <= s -> Z.abs (aligned_raw Rad x s) <= Z.abs (_value x).
Proof.
  intros Hs. unfold aligned_raw. apply OverflowFacts.quot_abs_le.
  pose proof (ShiftFacts.radix_pow_pos Rad (s - _scale x) ltac:(lia)). lia.
Qed.

Lemma aligned_raw_in_range (Rad : Radix) (bits : Z) (x : fixed_point)
                           (s : scale_type) :
  0 < bits -> _scale x <= s -> Int.in_range bits (_value x) ->
  Int.in_range bits (aligned_raw Rad x s).
Proof.
  intros Hb Hs Hr. unfold aligned_raw.
  apply ShiftFacts.in_range_quot; [assumption | | assumption].
  apply ShiftFacts.radix_pow_pos. lia.
Qed.

(** Both operands, when each aligns exactly to the larger scale. *)
Lemma aligned_operands (Rad : Radix) (lhs rhs : fixed_point) :
  let s := Z.max (_scale lhs) (_scale rhs) in
  let a := aligned_raw Rad lhs s in
  let b := aligned_raw Rad rhs s in
  aligns_exactly Rad lhs s = true ->
  aligns_exactly Rad rhs s = true ->
  Z.abs (_value lhs) < 2 ^ 53 -> Z.abs (_value rhs) < 2 ^ 53 ->
  radix_value Rad ^ Z.abs (_scale lhs - _scale rhs) < 2 ^ 53 ->
  aligned_lhs Rad lhs rhs = Double.of_Z a
  /\ aligned_rhs Rad lhs rhs = Double.of_Z b
  /\ Z.abs a < 2 ^ 53 /\ Z.abs b < 2 ^ 53.
Proof.
  intros s a b Hl Hr Hvl Hvr Hp.
  assert (Hpl : radix_value Rad ^ (s - _scale lhs) < 2 ^ 53).
  { subst s.
    destruct (Z.max_spec (_scale lhs) (_scale rhs)) as [[? ->]|[? ->]].
    - rewrite Z.abs_neq in Hp by lia.
      replace (_scale rhs - _scale lhs) with (- (_scale lhs - _scale rhs))
        by lia. exact Hp.
    - rewrite Z.sub_diag. reflexivity. }
  assert (Hpr : radix_value Rad ^ (s - _scale rhs) < 2 ^ 53).
  { subst s.
    destruct (Z.max_spec (_scale lhs) (_scale rhs)) as [[? ->]|[? ->]].
    - rewrite Z.sub_diag. reflexivity.
    - rewrite Z.abs_eq in Hp by lia. exact Hp. }
  split; [apply aligned_lhs_exact; assumption |].
  split; [apply aligned_rhs_exact; assumption |].
  pose proof (aligned_raw_abs Rad lhs s ltac:(subst s; lia)).
  pose proof (aligned_raw_abs Rad rhs s ltac:(subst s; lia)).
  subst a b. lia.
Qed.

(** The operands when the right one has the smaller scale. *)
Lemma aligned_to_lhs (Rad : Radix) (lhs rhs : fixed_point) :
  _scale rhs <= _scale lhs ->
  aligns_exactly Rad rhs (_scale lhs) = true ->
  Z.abs (_value rhs) < 2 ^ 53 ->
  radix_value Rad ^ (_scale lhs - _scale rhs) < 2 ^ 53 ->
  aligned_lhs Rad lhs rhs = Double.of_Z (_value lhs)
  /\ aligned_rhs Rad lhs rhs
     = Double.of_Z (aligned_raw Rad rhs (_scale lhs)).
Proof.
  intros Hs Hex Hv Hp. split.
  - unfold aligned_lhs.
    destruct (Z.ltb_spec (_scale lhs) (_scale rhs)); [lia | reflexivity].
  - pose proof (aligned_rhs_exact Rad lhs rhs) as H. cbv zeta in H.
    rewrite Z.max_l in H by lia. apply H; assumption.
Qed.

(** The sum once both operands are known to be integers below [2^53]. *)
Lemma plus_of_integers (rep : Rep) (Rad : Radix) (debug : bool)
                       (lhs rhs : fixed_point) (a b : Z) :
  aligned_lhs Rad lhs rhs = Double.of_Z a ->
  aligned_rhs Rad lhs rhs = Double.of_Z b ->
  Z.abs a < 2 ^ 53 -> Z.abs b < 2 ^ 53 -> Z.abs (a + b) < 2 ^ 53 ->
  (debug = true ->
   bits rep <= 32 /\ Int.in_range (bits rep) a /\ Int.in_range (bits rep) b) ->
  operator_plus rep Rad debug lhs rhs
  = if Int.in_rangeb (bits rep) (a + b)
    then Done {| _scale := Z.max (_scale lhs) (_scale rhs); _value := a + b |}
    else if debug then Failure (overflow_message rep) else Undefined.
Proof.
  intros Hal Har Ha Hb Hsum Hdebug.
  unfold operator_plus. rewrite Hal, Har, result_scale_max.
  rewrite DoubleFacts.add_of_Z, DoubleFacts.to_int_of_Z_cases by assumption.
  destruct debug; cbn [andb].
  - destruct (Hdebug eq_refl) as (Hbits & Hra & Hrb).
    rewrite OverflowFacts.addition_overflow_double_spec by assumption.
    destruct (Int.in_rangeb (bits rep) (a + b)); reflexivity.
  - destruct (Int.in_rangeb (bits rep) (a + b)); reflexivity.
Qed.

Lemma minus_of_integers (rep : Rep) (Rad : Radix) (debug : bool)
                        (lhs rhs : fixed_point) (a b : Z) :
  aligned_lhs Rad lhs rhs = Double.of_Z a ->
  aligned_rhs Rad lhs rhs = Double.of_Z b ->
  Z.abs a < 2 ^ 53 -> Z.abs b < 2 ^ 53 -> Z.abs (a - b) < 2 ^ 53 ->
  (debug = true ->
   bits rep <= 32 /\ Int.in_range (bits rep) a /\ Int.in_range (bits rep) b) ->
  operator_minus rep Rad debug lhs rhs
  = if Int.in_rangeb (bits rep) (a - b)
    then Done {| _scale := Z.max (_scale lhs) (_scale rhs); _value := a - b |}
    else if debug then Failure (overflow_message rep) else Undefined.
Proof.
  intros Hal Har Ha Hb Hsum Hdebug.
  unfold operator_minus. rewrite Hal, Har, result_scale_max.
  rewrite DoubleFacts.sub_of_Z, DoubleFacts.to_int_of_Z_cases by assumption.
  destruct debug; cbn [andb].
  - destruct (Hdebug eq_refl) as (Hbits & Hra & Hrb).
    rewrite OverflowFacts.subtraction_overflow_double_spec by assumption.
    destruct (Int.in_rangeb (bits rep) (a - b)); reflexivity.
  - destruct (Int.in_rangeb (bits rep) (a - b)); reflexivity.
Qed.

Lemma stands_for_integer_spec (rep : Rep) (Rad : Radix) (x : fixed_point) :
  stands_for_integer rep Rad x = true ->
  0 <= _scale x
  /\ radix_value Rad ^ _scale x < 2 ^ 53
  /\ Z.abs (represented Rad x) < 2 ^ 53
  /\ Int.in_range (bits rep) (_value x)
  /\ Int.in_range (bits rep) (represented Rad x)
  /\ Int.in_range 32 (Z.quot (_value x) (radix_value Rad ^ _scale x)).
Proof.
  unfold stands_for_integer. rewrite !andb_true_iff.
  rewrite Z.leb_le, !Z.ltb_lt, !IntFacts.in_rangeb_spec.
  intros [[[[Hs Hp] Habs] Hrep] Hq].
  repeat split; try assumption; try apply Hrep; try apply Hq.
  - apply (ShiftFacts.in_range_factor (bits rep) (_value x)
             (radix_value Rad ^ _scale x));
      [apply IntFacts.bits_pos | apply ShiftFacts.radix_pow_pos, Hs
       | exact Hrep].
  - apply (ShiftFacts.in_range_factor (bits rep) (_value x)
             (radix_value Rad ^ _scale x));
      [apply IntFacts.bits_pos | apply ShiftFacts.radix_pow_pos, Hs
       | exact Hrep].
Qed.

(** Both branches of [get()] return the integer the object stands for. *)
Lemma get_value (rep : Rep) (Rad : Radix) (x : fixed_point) :
  stands_for_integer rep Rad x = true ->
  get rep Rad x = Some (Double.of_Z (represented Rad x)).
Proof.
  intros H. apply stands_for_integer_spec in H. revert H.
  destruct x as [s v]. unfold represented. cbn [_scale _value].
  intros (Hs & Hp & Habs & Hv & Hrep & Hq).
  pose proof (ShiftFacts.radix_pow_pos Rad s Hs) as Hpos.
  pose proof (ShiftFacts.abs_factor_le v (radix_value Rad ^ s) Hpos) as Hle.
  unfold get, needs_floating_point, rounded_val, Double.to_int.
  cbn [_scale _value].
  rewrite DoubleFacts.pow_nonneg by assumption.
  rewrite DoubleFacts.trunc_div_of_Z by lia.
  apply IntFacts.in_rangeb_spec in Hq. rewrite Hq.
  match goal with |- context [negb ?t] => destruct (negb t) end.
  - unfold operator_cast, unshifted, static_cast.
    cbn [_scale _value as_double option_map].
    rewrite ShiftFacts.unshift_exact by assumption. reflexivity.
  - unfold operator_cast, unshifted, static_cast.
    cbn [_scale _value as_double option_map].
    rewrite IntFacts.wrap_small by (apply IntFacts.bits_pos || assumption).
    rewrite ShiftFacts.unshift_exact by assumption.
    rewrite DoubleFacts.to_int_of_Z by assumption. reflexivity.
Qed.

End AlignFacts.

(** ** The rational value of an object *)

Module ValueFacts.

Lemma radix_nonzero (Rad : Radix) : ~ (inject_Z (radix_value Rad) == 0)%Q.
Proof. destruct Rad; discriminate. Qed.

Lemma value_of_product (Rad : Radix) (sx vx sy vy : Z) :
  (value_of Rad {| _scale := (sx + sy)%Z; _value := (vx * vy)%Z |}
   == value_of Rad {| _scale := sx; _value := vx |}
      * value_of Rad {| _scale := sy; _value := vy |})%Q.
Proof.
  unfold value_of. cbn [_scale _value].
  rewrite inject_Z_mult, Qpower_plus by apply radix_nonzero. ring.
Qed.

(** An object that aligns exactly to the scale [s] stands for its aligned
    raw value at that scale. *)
Lemma value_of_aligned (Rad : Radix) (x : fixed_point) (s : scale_type) :
  _scale x <= s -> aligns_exactly Rad x s = true ->
  (value_of Rad x
   == inject_Z (aligned_raw Rad x s) * inject_Z (radix_value Rad) ^ s)%Q.
Proof.
  intros Hs Hex. unfold aligns_exactly in Hex. apply Z.eqb_eq in Hex.
  unfold value_of, aligned_raw.
  pose proof (Z.quot_rem' (_value x) (radix_value Rad ^ (s - _scale x)))
    as Hqr.
  rewrite Hex, Z.add_0_r in Hqr.
  assert (Hpow : (inject_Z (radix_value Rad) ^ s
                  == inject_Z (radix_value Rad) ^ (s - _scale x)
                     * inject_Z (radix_value Rad) ^ _scale x)%Q).
  { rewrite <- Qpower_plus by apply radix_nonzero.
    replace (s - _scale x + _scale x) with s by lia. reflexivity. }
  rewrite Hpow, Hqr at 1.
  rewrite inject_Z_mult, Zpower_Qpower by lia. ring.
Qed.

Lemma value_of_sum (Rad : Radix) (s a b : Z) :
  (value_of Rad {| _scale := s; _value := (a + b)%Z |}
   == inject_Z a * inject_Z (radix_value Rad) ^ s
      + inject_Z b * inject_Z (radix_value Rad) ^ s)%Q.
Proof.
  unfold value_of. cbn [_scale _value]. rewrite inject_Z_plus. ring.
Qed.

Lemma value_of_difference (Rad : Radix) (s a b : Z) :
  (value_of Rad {| _scale := s; _value := (a - b)%Z |}
   == inject_Z a * inject_Z (radix_value Rad) ^ s
      - inject_Z b * inject_Z (radix_value Rad) ^ s)%Q.
Proof.
  unfold value_of. cbn [_scale _value].
  unfold Z.sub. rewrite inject_Z_plus, inject_Z_opp. ring.
Qed.

Lemma value_of_constructed_nonneg (Rad : Radix) (v s : Z) :
  0 <= s ->
  (value_of Rad {| _scale := s; _value := Z.quot v (radix_value Rad ^ s) |}
   == inject_Z (v - Z.rem v (radix_value Rad ^ s)))%Q.
Proof.
  intros Hs. unfold value_of. cbn [_scale _value].
  rewrite <- Zpower_Qpower, <- inject_Z_mult by assumption.
  pose proof (Z.quot_rem' v (radix_value Rad ^ s)).
  replace (v - Z.rem v (radix_value Rad ^ s))
    with (Z.quot v (radix_value Rad ^ s) * radix_value Rad ^ s) by lia.
  reflexivity.
Qed.

Lemma value_of_constructed_neg (Rad : Radix) (v s : Z) :
  s < 0 ->
  (value_of Rad {| _scale := s; _value := v * radix_value Rad ^ (- s) |}
   == inject_Z v)%Q.
Proof.
  intros Hs. unfold value_of. cbn [_scale _value].
  rewrite inject_Z_mult, Zpower_Qpower by lia.
  rewrite <- Qmult_assoc, <- Qpower_plus by apply radix_nonzero.
  replace (- s + s) with 0 by lia. cbn [Qpower]. ring.
Qed.

(** The product when it fits [Rep], with or without the overflow check. *)
Lemma multiplies_in_range (rep : Rep) (debug : bool)
                          (lhs rhs : fixed_point) :
  Int.in_range (bits rep) (_value lhs) ->
  Int.in_range (bits rep) (_value rhs) ->
  Int.in_range (bits rep) (_value lhs * _value rhs) ->
  operator_multiplies rep debug lhs rhs
  = Done {| _scale := Int.wrap 32 (_scale lhs + _scale rhs);
            _value := _value lhs * _value rhs |}.
Proof.
  intros Hl Hr Hprod. unfold operator_multiplies, from_scaled.
  cbn [value scale].
  rewrite OverflowFacts.multiplication_overflow_rep by assumption.
  assert (Hin := Hprod). apply IntFacts.in_rangeb_spec in Hin.
  rewrite Hin. cbn [negb]. rewrite andb_false_r.
  rewrite IntFacts.narrow_promoted.
  rewrite (IntFacts.wrap_small (bits rep))
    by (apply IntFacts.bits_pos || assumption).
  reflexivity.
Qed.

End ValueFacts.

(** * The statements of the specification, C1 to C10 *)

(** ** C1: the sum of 1 at scale 0 and 1 at scale 1 *)

(** C1 fails on the code.  As the specification words it, the sum of the
    pairs (1, scale 0) and (1, scale 1) in radix 10 is (11, scale 1): the
    operand of the smaller scale is multiplied by 10, which is what
    [left_shift], the helper commented as the one for a positive scale,
    computes.  [operator+] does keep the larger scale, but it aligns the
    operand of the smaller scale through [detail::shift], which sends a
    positive exponent to [right_shift]: the operand becomes 1 / 10, not
    10, and the sum of the two stored pairs is (1, scale 1).  The
    constructor goes through the same [shift]: 1 at scale 1 is stored as
    raw value 0, and the sum of the two constructed values is
    (0, scale 1), for every representation type, with or without the
    overflow check. *)
Theorem scenario_2_sum_diverges :
  spec_plus BASE_10 {| _scale := 0; _value := 1 |}
                    {| _scale := 1; _value := 1 |}
    = {| _scale := 1; _value := 11 |}
  /\ detail.left_shift BASE_10 (Double.of_Z 1) 1 = Double.of_Z 10
  /\ detail.shift BASE_10 (Double.of_Z 1) 1
     = detail.right_shift BASE_10 (Double.of_Z 1) 1
  /\ aligned_lhs BASE_10 {| _scale := 0; _value := 1 |}
                          {| _scale := 1; _value := 1 |}
     = Double.div (Double.of_Z 1) (Double.of_Z 10)
  /\ aligned_lhs BASE_10 {| _scale := 0; _value := 1 |}
                          {| _scale := 1; _value := 1 |}
     <> Double.of_Z 10
  /\ (forall (rep : Rep) (debug : bool),
        operator_plus rep BASE_10 debug {| _scale := 0; _value := 1 |}
                                        {| _scale := 1; _value := 1 |}
        = Done {| _scale := 1; _value := 1 |})
  /\ (forall rep : Rep,
        from_value_and_scale rep BASE_10 (Integral 1) 1
        = Some {| _scale := 1; _value := 0 |})
  /\ (forall (rep : Rep) (debug : bool),
        plus_of_values rep BASE_10 debug 1 0 1 1
        = Done {| _scale := 1; _value := 0 |}).
Proof.
  split; [reflexivity |]. split; [vm_compute; reflexivity |].
  split; [reflexivity |]. split; [vm_compute; reflexivity |].
  split; [vm_compute; discriminate |].
  split; [| split].
  - intros rep debug. destruct rep, debug; vm_compute; reflexivity.
  - intros rep. destruct rep; vm_compute; reflexivity.
  - intros rep debug. destruct rep, debug; vm_compute; reflexivity.
Qed.

(** ** C2: the value a pre-scaled pair stands for *)

(** C2 fails on the code.  The pre-scaled constructor stores the pair as
    it is.  As the specification words it, the pair (50, scale 1) in radix
    10 stands for 50 / 10 = 5 and the pair (50, scale -1) for
    50 * 10 = 500; the [int] local of [get()] is computed that way,
    [_value / pow(Rad, scale)], and gives 5 for the first pair.  The
    conversion operator returns 500 for the first pair and 5 for the
    second: it shifts by the negated scale through [detail::shift], which
    sends a negative scale to [left_shift].  Converted to [double], the
    pair (5, scale 1) gives 50, not 5 / 10. *)
Theorem cast_of_scaled_diverges :
  from_scaled {| value := 50; scale := 1 |}
    = {| _scale := 1; _value := 50 |}
  /\ spec_cast BASE_10 (from_scaled {| value := 50; scale := 1 |}) = 5
  /\ rounded_val BASE_10 (from_scaled {| value := 50; scale := 1 |})
     = Some 5
  /\ operator_cast BASE_10 (TInt Int32)
                   (from_scaled {| value := 50; scale := 1 |})
     = Some (Integral 500)
  /\ unshifted BASE_10 (TInt Int32)
               (from_scaled {| value := 50; scale := 1 |})
     = detail.left_shift BASE_10 (Double.of_Z 50) 1
  /\ spec_cast BASE_10 (from_scaled {| value := 50; scale := -1 |}) = 500
  /\ operator_cast BASE_10 (TInt Int32)
                   (from_scaled {| value := 50; scale := -1 |})
     = Some (Integral 5)
  /\ operator_cast BASE_10 TDouble (from_scaled {| value := 5; scale := 1 |})
     = Some (Floating (Double.of_Z 50))
  /\ Double.of_Z 50 <> Double.div (Double.of_Z 5) (Double.pow 10 1).
Proof.
  split; [reflexivity |]. split; [reflexivity |].
  split; [vm_compute; reflexivity |]. split; [vm_compute; reflexivity |].
  split; [reflexivity |]. split; [reflexivity |].
  split; [vm_compute; reflexivity |]. split; [vm_compute; reflexivity |].
  vm_compute. discriminate.
Qed.

(** ** C3: construction followed by conversion *)

(** The round trip when the power of the radix is itself below [2^53]. *)
Lemma round_trip_small_power :
  forall (rep : Rep) (Rad : Radix) (U : Rep) (v : Z) (s : scale_type),
    negatable s ->
    Int.in_range (bits U) v ->
    exactly_representable rep Rad v s = true ->
    Z.abs v < 2 ^ 53 ->
    Z.abs (raw_at Rad v s) < 2 ^ 53 ->
    radix_value Rad ^ Z.abs s < 2 ^ 53 ->
    Int.in_range (bits U) (raw_at Rad v s) ->
    round_trip rep Rad U v s = Some (Integral v).
Proof.
  intros rep Rad U v s Hs Hv Hrep Hv53 Hraw53 Hpow HrawU.
  unfold exactly_representable in Hrep. apply andb_true_iff in Hrep.
  destruct Hrep as [Hexact HrawRep].
  apply IntFacts.in_rangeb_spec in HrawRep.
  assert (Hneg : detail.negate s = - s) by (apply IntFacts.negate_small, Hs).
  unfold round_trip, from_value_and_scale, raw_at in *. cbn [as_double].
  destruct (0 <=? s) eqn:Esign.
  - apply Z.leb_le in Esign. apply Z.eqb_eq in Hexact.
    rewrite Z.abs_eq in Hpow by assumption.
    set (R := radix_value Rad) in *.
    pose proof (ShiftFacts.radix_pow_pos Rad s Esign) as Hpp. fold R in Hpp.
    assert (Hq : v = v / R ^ s * R ^ s).
    { rewrite Z.mul_comm. apply Z.div_exact; [lia | exact Hexact]. }
    set (u := v / R ^ s) in *.
    rewrite Hq at 1.
    rewrite ShiftFacts.shift_nonneg_exact;
      [| assumption | assumption | fold R; rewrite <- Hq; assumption].
    rewrite DoubleFacts.to_int_of_Z by assumption.
    unfold operator_cast, unshifted, static_cast.
    cbn [_value _scale as_double option_map].
    rewrite IntFacts.wrap_small by (apply IntFacts.bits_pos || assumption).
    rewrite Hneg.
    destruct (Z.eq_dec s 0) as [-> | Hnz].
    + change (- 0) with 0.
      replace (Double.of_Z u) with (Double.of_Z (u * R ^ 0))
        by (rewrite Z.pow_0_r, Z.mul_1_r; reflexivity).
      rewrite ShiftFacts.shift_nonneg_exact;
        fold R; rewrite ?Z.pow_0_r, ?Z.mul_1_r; try lia.
      rewrite DoubleFacts.to_int_of_Z by assumption.
      rewrite Hq, Z.pow_0_r, Z.mul_1_r. reflexivity.
    + rewrite ShiftFacts.shift_neg_exact;
        fold R; rewrite ?Z.opp_involutive; try lia.
      * rewrite <- Hq. rewrite DoubleFacts.to_int_of_Z by assumption.
        reflexivity.
      * unfold negatable, Int.min_signed, Int.max_signed in *. lia.
  - apply Z.leb_gt in Esign.
    rewrite Z.abs_neq in Hpow by lia.
    set (R := radix_value Rad) in *.
    rewrite ShiftFacts.shift_neg_exact by (assumption || lia).
    fold R. rewrite DoubleFacts.to_int_of_Z by assumption.
    unfold operator_cast, unshifted, static_cast.
    cbn [_value _scale as_double option_map].
    rewrite IntFacts.wrap_small by (apply IntFacts.bits_pos || assumption).
    rewrite Hneg.
    rewrite ShiftFacts.shift_nonneg_exact; fold R; try assumption; try lia.
    rewrite DoubleFacts.to_int_of_Z by assumption. reflexivity.
Qed.

(** C3, as stated, does not hold.  The 64-bit integer 90071992547409930 is
    exactly representable at scale 1 in radix 10 (it is 9007199254740993
    times 10, and both are [int64_t] values), yet constructing it at scale
    1 and converting back to [int64_t] returns 90071992547409936: the
    conversions to [double] round.  Also, 100 is an [int8_t] value exactly
    representable at scale -2 in an [int32_t] representation, yet the round
    trip to [int8_t] does not return 100: the raw value 10000 is narrowed
    to [int8_t] before it is shifted back.  And 0 is exactly representable
    at scale 400, yet its round trip has no defined result: [10^400] is an
    infinite [double]. *)
Lemma round_trip_loses_value :
  exactly_representable Int64 BASE_10 90071992547409930 1 = true
  /\ Int.in_range 64 90071992547409930
  /\ round_trip Int64 BASE_10 Int64 90071992547409930 1
     = Some (Integral 90071992547409936)
  /\ round_trip Int64 BASE_10 Int64 90071992547409930 1
     <> Some (Integral 90071992547409930)
  /\ exactly_representable Int32 BASE_10 100 (-2) = true
  /\ Int.in_range 8 100
  /\ round_trip Int32 BASE_10 Int8 100 (-2) <> Some (Integral 100)
  /\ exactly_representable Int32 BASE_10 0 400 = true
  /\ round_trip Int32 BASE_10 Int32 0 400 <> Some (Integral 0).
Proof.
  vm_compute. repeat split; discriminate.
Qed.

(** C3, amended.  For every native integer [v] of an integer type [U] and
    every scale [s] such that [v] is exactly representable at scale [s]
    (the raw value [v / Radix^s], resp. [v * Radix^(-s)], is exact and fits
    [Rep]), provided [v] and the raw value are below [2^53] in magnitude,
    the raw value fits [U], and, for [v = 0], the power [Radix^|s|] is a
    finite [double], constructing a [fixed_point] from [(v, s)] and
    converting it back to [U] returns exactly [v]. *)
Theorem round_trip_exact :
  forall (rep : Rep) (Rad : Radix) (U : Rep) (v : Z) (s : scale_type),
    Int.in_range 32 s ->
    Int.in_range (bits U) v ->
    exactly_representable rep Rad v s = true ->
    Z.abs v < 2 ^ 53 ->
    Z.abs (raw_at Rad v s) < 2 ^ 53 ->
    (v = 0 -> radix_value Rad ^ Z.abs s < 2 ^ 1024) ->
    Int.in_range (bits U) (raw_at Rad v s) ->
    round_trip rep Rad U v s = Some (Integral v).
Proof.
  intros rep Rad U v s Hs32 Hv Hrep Hv53 Hraw53 Hzero HrawU.
  assert (Hpow : v <> 0 -> radix_value Rad ^ Z.abs s < 2 ^ 53).
  { intros Hnz. unfold raw_at in Hraw53.
    assert (Hexact := Hrep). unfold exactly_representable in Hexact.
    apply andb_true_iff in Hexact. destruct Hexact as [Hexact _].
    destruct (0 <=? s) eqn:Esign.
    - apply Z.leb_le in Esign. apply Z.eqb_eq in Hexact.
      rewrite Z.abs_eq by assumption.
      pose proof (ShiftFacts.radix_pow_pos Rad s Esign) as Hpp.
      assert (Hq : v = v / radix_value Rad ^ s * radix_value Rad ^ s).
      { rewrite Z.mul_comm. apply Z.div_exact; [lia | exact Hexact]. }
      apply (ShiftFacts.factor_bound (v / radix_value Rad ^ s));
        [assumption | | rewrite <- Hq; assumption].
      intros H0. rewrite H0 in Hq. lia.
    - apply Z.leb_gt in Esign. rewrite Z.abs_neq by lia.
      apply (ShiftFacts.factor_bound v); [| assumption | assumption].
      apply ShiftFacts.radix_pow_pos. lia. }
  assert (Hs : negatable s).
  { assert (Hbound : Z.abs s < 1024).
    { destruct (Z.eq_dec v 0) as [H0 | Hnz].
      - apply (ShiftFacts.radix_pow_exponent Rad); auto; lia.
      - assert (Z.abs s < 53); [| lia].
        apply (ShiftFacts.radix_pow_exponent Rad); auto; lia. }
    unfold negatable, Int.in_range, Int.min_signed, Int.max_signed in *.
    lia. }
  destruct (Z.eq_dec v 0) as [-> | Hnz].
  - specialize (Hzero eq_refl).
    assert (Hneg : detail.negate s = - s) by (apply IntFacts.negate_small, Hs).
    assert (Hr1 : Int.min_signed 32 < s <= - Int.min_signed 32)
      by (unfold negatable, Int.min_signed, Int.max_signed in *; lia).
    assert (Hr2 : Int.min_signed 32 < - s <= - Int.min_signed 32)
      by (unfold negatable, Int.min_signed, Int.max_signed in *; lia).
    assert (Hin : forall r, Int.in_range (bits r) 0)
      by (intros r; destruct r; vm_compute; split; discriminate).
    unfold round_trip, from_value_and_scale. cbn [as_double].
    rewrite ShiftFacts.shift_zero by assumption.
    rewrite DoubleFacts.to_int_of_Z by (apply Hin || (cbn; lia)).
    unfold operator_cast, unshifted, static_cast.
    cbn [_value _scale as_double option_map].
    rewrite IntFacts.wrap_small by (apply IntFacts.bits_pos || apply Hin).
    rewrite Hneg.
    rewrite ShiftFacts.shift_zero
      by (assumption || (rewrite Z.abs_opp; assumption)).
    rewrite DoubleFacts.to_int_of_Z by (apply Hin || (cbn; lia)).
    reflexivity.
  - apply round_trip_small_power; auto.
Qed.

Lemma round_trip_exact_witness :
  round_trip Int32 BASE_10 Int32 125 (-2) = Some (Integral 125)
  /\ round_trip Int32 BASE_10 Int32 12500 2 = Some (Integral 12500).
Proof.
  split.
  - apply round_trip_exact;
      vm_compute; repeat split; (reflexivity || discriminate).
  - apply round_trip_exact;
      vm_compute; repeat split; (reflexivity || discriminate).
Defined.

(** ** C4: the direction of [detail::shift] *)

(** C4.  For every value and every scale, [shift(value, scale)] is
    [value / Radix^scale] when [scale >= 0] and [value * Radix^(-scale)]
    when [scale < 0], where [-scale] is [detail::negate(scale)], the
    opposite of every scale above the least [int32_t]; only the sign of the
    scale selects the direction.  Both are computed in [double].  On
    integers below [2^53] the product is exact, the quotient is exact when
    the division is, and in every case its integer part is the integer
    quotient. *)
Theorem shift_direction :
  forall (Rad : Radix) (val : double) (scale : scale_type),
    let R := radix_value Rad in
    (0 <= scale ->
     detail.shift Rad val scale = Double.div val (Double.pow R scale))
    /\ (scale < 0 ->
        detail.shift Rad val scale
        = Double.mul val (Double.pow R (detail.negate scale)))
    /\ (negatable scale -> detail.negate scale = - scale)
    /\ (forall u : Z,
          0 <= scale -> R ^ scale < 2 ^ 53 ->
          Z.abs (u * R ^ scale) < 2 ^ 53 ->
          detail.shift Rad (Double.of_Z (u * R ^ scale)) scale
          = Double.of_Z u)
    /\ (forall v : Z,
          0 <= scale -> R ^ scale < 2 ^ 53 -> Z.abs v < 2 ^ 53 ->
          Double.trunc (detail.shift Rad (Double.of_Z v) scale)
          = Some (Z.quot v (R ^ scale)))
    /\ (forall u : Z,
          negatable scale -> scale < 0 -> R ^ (- scale) < 2 ^ 53 ->
          Z.abs (u * R ^ (- scale)) < 2 ^ 53 ->
          detail.shift Rad (Double.of_Z u) scale
          = Double.of_Z (u * R ^ (- scale))).
Proof.
  intros Rad val scale R.
  split; [| split; [| split; [| split; [| split]]]].
  - apply ShiftFacts.shift_nonneg.
  - intros Hneg. unfold detail.shift, detail.left_shift.
    destruct (scale >=? 0) eqn:E; [lia | reflexivity].
  - apply IntFacts.negate_small.
  - intros u. apply ShiftFacts.shift_nonneg_exact.
  - intros v. apply ShiftFacts.shift_nonneg_trunc.
  - intros u. apply ShiftFacts.shift_neg_exact.
Qed.

Lemma shift_direction_witness :
  detail.shift BASE_10 (Double.of_Z 12500) 2
    = Double.div (Double.of_Z 12500) (Double.pow 10 2)
  /\ detail.shift BASE_10 (Double.of_Z 125) (-2)
     = Double.mul (Double.of_Z 125) (Double.pow 10 (detail.negate (-2)))
  /\ detail.negate (-2) = - -2
  /\ detail.shift BASE_10 (Double.of_Z (125 * 10 ^ 2)) 2 = Double.of_Z 125
  /\ Double.trunc (detail.shift BASE_10 (Double.of_Z (-12599)) 2)
     = Some (Z.quot (-12599) (10 ^ 2))
  /\ detail.shift BASE_10 (Double.of_Z 125) (-2)
     = Double.of_Z (125 * 10 ^ (- -2)).
Proof.
  assert (Hneg : negatable (-2))
    by (vm_compute; split; (reflexivity || discriminate)).
  split; [| split; [| split; [| split; [| split]]]].
  - apply (proj1 (shift_direction BASE_10 (Double.of_Z 12500) 2)).
    discriminate.
  - apply (proj1 (proj2 (shift_direction BASE_10 (Double.of_Z 125) (-2)))).
    reflexivity.
  - apply (proj1 (proj2 (proj2
             (shift_direction BASE_10 (Double.of_Z 0) (-2)))) Hneg).
  - apply (proj1 (proj2 (proj2 (proj2
             (shift_direction BASE_10 (Double.of_Z 0) 2)))) 125);
      vm_compute; (reflexivity || discriminate).
  - apply (proj1 (proj2 (proj2 (proj2 (proj2
             (shift_direction BASE_10 (Double.of_Z 0) 2))))) (-12599));
      vm_compute; (reflexivity || discriminate).
  - apply (proj2 (proj2 (proj2 (proj2 (proj2
             (shift_direction BASE_10 (Double.of_Z 0) (-2)))))) 125);
      try exact Hneg; vm_compute; (reflexivity || discriminate).
Defined.

(** ** C5: the overflow predicates *)

(** C5.  On operands of the representation type, each overflow predicate
    is true exactly when the mathematical result of the integer operation
    is outside the range of the representation (for the division, with a
    non-zero divisor); the predicates are functions of their two operands.
    In particular [addition_overflow(MAX, 1)] is true and
    [addition_overflow(MAX, 0)] false, and so for the subtraction at
    [MIN], the multiplication [MIN * -1] against [MIN * 1] and the division
    [MIN / -1] against [MIN / 1]. *)
Theorem overflow_predicates_exact :
  forall (rep : Rep) (lhs rhs : Z),
    Int.in_range (bits rep) lhs ->
    Int.in_range (bits rep) rhs ->
    let MIN := numeric_limits_min rep in
    let MAX := numeric_limits_max rep in
    (addition_overflow (A := rep_arithmetic rep) rep lhs rhs = true
     <-> ~ Int.in_range (bits rep) (lhs + rhs))
    /\ (subtraction_overflow (A := rep_arithmetic rep) rep lhs rhs = true
        <-> ~ Int.in_range (bits rep) (lhs - rhs))
    /\ (multiplication_overflow (A := rep_arithmetic rep) rep lhs rhs = true
        <-> ~ Int.in_range (bits rep) (lhs * rhs))
    /\ (rhs <> 0 ->
        (division_overflow (A := rep_arithmetic rep) rep lhs rhs = true
         <-> ~ Int.in_range (bits rep) (Z.quot lhs rhs)))
    /\ addition_overflow (A := rep_arithmetic rep) rep MAX 1 = true
    /\ addition_overflow (A := rep_arithmetic rep) rep MAX 0 = false
    /\ subtraction_overflow (A := rep_arithmetic rep) rep MIN 1 = true
    /\ subtraction_overflow (A := rep_arithmetic rep) rep MIN 0 = false
    /\ multiplication_overflow (A := rep_arithmetic rep) rep MIN (-1) = true
    /\ multiplication_overflow (A := rep_arithmetic rep) rep MIN 1 = false
    /\ division_overflow (A := rep_arithmetic rep) rep MIN (-1) = true
    /\ division_overflow (A := rep_arithmetic rep) rep MIN 1 = false.
Proof.
  intros rep lhs rhs Hl Hr MIN MAX. subst MIN MAX.
  split; [apply OverflowFacts.addition_overflow_spec; assumption |].
  split; [apply OverflowFacts.subtraction_overflow_spec; assumption |].
  split; [apply OverflowFacts.multiplication_overflow_spec; assumption |].
  split; [apply OverflowFacts.division_overflow_spec; assumption |].
  destruct rep; vm_compute; repeat split.
Qed.

Lemma overflow_predicates_exact_witness :
  (addition_overflow (A := rep_arithmetic Int8) Int8 100 28 = true
   <-> ~ Int.in_range 8 (100 + 28))
  /\ (multiplication_overflow (A := rep_arithmetic Int8) Int8 100 28 = true
      <-> ~ Int.in_range 8 (100 * 28))
  /\ (division_overflow (A := rep_arithmetic Int8) Int8 100 28 = true
      <-> ~ Int.in_range 8 (Z.quot 100 28)).
Proof.
  assert (H100 : Int.in_range (bits Int8) 100)
    by (vm_compute; split; discriminate).
  assert (H28 : Int.in_range (bits Int8) 28)
    by (vm_compute; split; discriminate).
  pose proof (overflow_predicates_exact Int8 100 28 H100 H28)
    as (Hadd & _ & Hmul & Hdiv & _).
  split; [exact Hadd | split; [exact Hmul |]].
  apply Hdiv. discriminate.
Defined.

(** ** C6: multiplication *)

(** C6.  Multiplication aligns no scale: the raw value of the result is the
    product of the raw values and its scale the sum of the scales, in the
    arithmetic of [Rep] and of [int32_t], whenever the operator returns
    (it always does without the overflow check); when the product and the
    sum are representable they are the mathematical product and sum, with
    or without the check. *)
Theorem multiplication_scale_law :
  forall (rep : Rep) (lhs rhs : fixed_point),
    operator_multiplies rep false lhs rhs
    = Done {| _scale := Int.wrap 32 (_scale lhs + _scale rhs);
              _value := Int.wrap (bits rep) (_value lhs * _value rhs) |}
    /\ (forall (debug : bool) (result : fixed_point),
          operator_multiplies rep debug lhs rhs = Done result ->
          _scale result = Int.wrap 32 (_scale lhs + _scale rhs)
          /\ _value result = Int.wrap (bits rep) (_value lhs * _value rhs))
    /\ (forall debug : bool,
          well_formed rep lhs -> well_formed rep rhs ->
          Int.in_range (bits rep) (_value lhs * _value rhs) ->
          Int.in_range 32 (_scale lhs + _scale rhs) ->
          operator_multiplies rep debug lhs rhs
          = Done {| _scale := _scale lhs + _scale rhs;
                    _value := _value lhs * _value rhs |}).
Proof.
  intros rep lhs rhs. split; [| split].
  - unfold operator_multiplies, from_scaled. cbn [andb value scale].
    rewrite IntFacts.narrow_promoted. reflexivity.
  - intros debug result. unfold operator_multiplies, from_scaled.
    cbn [value scale]. rewrite IntFacts.narrow_promoted.
    destruct (debug && multiplication_overflow rep (_value lhs) (_value rhs));
      [discriminate |].
    intros H. injection H as <-. split; reflexivity.
  - intros debug [Hl _] [Hr _] Hprod Hsum.
    unfold operator_multiplies, from_scaled. cbn [value scale].
    assert (Hno : multiplication_overflow (A := rep_arithmetic rep) rep
                    (_value lhs) (_value rhs) = false).
    { destruct (multiplication_overflow (A := rep_arithmetic rep) rep
                  (_value lhs) (_value rhs)) eqn:E; [|reflexivity].
      apply OverflowFacts.multiplication_overflow_spec in E;
        [contradiction | assumption | assumption]. }
    rewrite Hno, andb_false_r.
    rewrite IntFacts.narrow_promoted.
    rewrite !IntFacts.wrap_small
      by (apply IntFacts.bits_pos || reflexivity || assumption).
    reflexivity.
Qed.

Lemma multiplication_scale_law_witness :
  operator_multiplies Int32 true
    {| _scale := 1; _value := 12 |} {| _scale := 2; _value := -5 |}
  = Done {| _scale := 1 + 2; _value := 12 * -5 |}.
Proof.
  apply (proj2 (proj2 (multiplication_scale_law Int32
                         {| _scale := 1; _value := 12 |}
                         {| _scale := 2; _value := -5 |})) true);
    vm_compute; repeat split; discriminate.
Defined.

(** ** C7: division *)




(** ** C8: the exactness test of [get()] *)

(** C8 fails on the code.  For the stored pair (100, scale 2) in radix 10
    the candidate is 100 / 10^2 = 1 and re-expanding it reproduces 100, so
    the value is whole at its scale; [get()] nevertheless takes the
    floating-point branch, because it compares [1 * 10 * 2] with 100.  And
    for the pair (10, scale 1), where the test passes, the result is not
    the candidate 1 but the conversion of the object to [Rep], 100. *)
Theorem get_exactness_test_diverges :
  rounded_val BASE_10 {| _scale := 2; _value := 100 |} = Some 1
  /\ 1 * 10 ^ 2 = 100
  /\ spec_needs_floating_point BASE_10 {| _scale := 2; _value := 100 |}
     = false
  /\ needs_floating_point BASE_10 {| _scale := 2; _value := 100 |}
     = Some true
  /\ rounded_val BASE_10 {| _scale := 1; _value := 10 |} = Some 1
  /\ needs_floating_point BASE_10 {| _scale := 1; _value := 10 |}
     = Some false
  /\ get Int32 BASE_10 {| _scale := 1; _value := 10 |}
     = Some (Double.of_Z 100).
Proof. vm_compute. repeat split. Qed.

(** ** C9: the only failure of the division *)

(** C9.  With the overflow check compiled in, division fails exactly when
    the raw value of the dividend is [MIN] and that of the divisor is -1,
    and the failure is the overflow failure; [division_overflow(lhs, 0)] is
    false for every [lhs], so a zero divisor is never reported: the
    division by zero is left undefined with or without the check.  Without
    the check the division never fails, and no operator fails with anything
    but the overflow message. *)
Theorem division_fails_only_for_min_by_minus_one :
  forall (rep : Rep) (Rad : Radix) (lhs rhs : fixed_point),
    ((exists msg, operator_divides rep true lhs rhs = Failure msg)
     <-> _value lhs = numeric_limits_min rep /\ _value rhs = -1)
    /\ (operator_divides rep true lhs rhs = Failure (overflow_message rep)
        <-> _value lhs = numeric_limits_min rep /\ _value rhs = -1)
    /\ division_overflow (A := rep_arithmetic rep) rep (_value lhs) 0 = false
    /\ (forall debug : bool,
          _value rhs = 0 -> operator_divides rep debug lhs rhs = Undefined)
    /\ (forall msg, operator_divides rep false lhs rhs <> Failure msg)
    /\ (forall (debug : bool) (msg : string),
          operator_plus rep Rad debug lhs rhs = Failure msg
          \/ operator_minus rep Rad debug lhs rhs = Failure msg
          \/ operator_multiplies rep debug lhs rhs = Failure msg
          \/ operator_divides rep debug lhs rhs = Failure msg ->
          msg = overflow_message rep).
Proof.
  intros rep Rad lhs rhs.
  assert (Hdiv : forall debug msg,
             operator_divides rep debug lhs rhs = Failure msg ->
             debug = true
             /\ division_overflow (A := rep_arithmetic rep) rep
                  (_value lhs) (_value rhs) = true
             /\ msg = overflow_message rep).
  { intros debug msg. unfold operator_divides.
    destruct debug; cbn [andb].
    - destruct (division_overflow rep (_value lhs) (_value rhs)).
      + intros H. injection H as <-. auto.
      + destruct (_value rhs =? 0); [discriminate |].
        destruct (negb _); discriminate.
    - destruct (_value rhs =? 0); [discriminate |].
      destruct (negb _); discriminate. }
  assert (Hfail :
            division_overflow (A := rep_arithmetic rep) rep
              (_value lhs) (_value rhs) = true ->
            operator_divides rep true lhs rhs
            = Failure (overflow_message rep)).
  { intros H. unfold operator_divides. cbn [andb]. rewrite H. reflexivity. }
  assert (Hiff :
            division_overflow (A := rep_arithmetic rep) rep
              (_value lhs) (_value rhs) = true
            <-> _value lhs = numeric_limits_min rep /\ _value rhs = -1).
  { unfold division_overflow. cbn [rep_arithmetic t_eq lit].
    rewrite andb_true_iff, !Z.eqb_eq. tauto. }
  split; [| split; [| split; [| split; [| split]]]].
  - split.
    + intros [msg H]. apply Hiff. apply (Hdiv true msg H).
    + intros H. exists (overflow_message rep). apply Hfail, Hiff, H.
  - split.
    + intros H. apply Hiff. apply (Hdiv true _ H).
    + intros H. apply Hfail, Hiff, H.
  - unfold division_overflow. cbn [rep_arithmetic t_eq lit].
    apply andb_false_r.
  - intros debug Hz. unfold operator_divides.
    unfold division_overflow. cbn [rep_arithmetic t_eq lit].
    rewrite Hz. cbn [Z.eqb]. rewrite andb_false_r, andb_false_r.
    reflexivity.
  - intros msg H. destruct (Hdiv false msg H) as [Habs _]. discriminate.
  - intros debug msg [H | [H | [H | H]]].
    + unfold operator_plus in H.
      destruct (debug && addition_overflow rep _ _).
      * injection H as <-. reflexivity.
      * destruct (Double.to_int _ _); discriminate.
    + unfold operator_minus in H.
      destruct (debug && subtraction_overflow rep _ _).
      * injection H as <-. reflexivity.
      * destruct (Double.to_int _ _); discriminate.
    + unfold operator_multiplies in H.
      destruct (debug && multiplication_overflow rep _ _).
      * injection H as <-. reflexivity.
      * discriminate.
    + apply (Hdiv debug msg H).
Qed.

Lemma division_fails_only_for_min_by_minus_one_witness :
  operator_divides Int32 true {| _scale := 0; _value := -2147483648 |}
                              {| _scale := 0; _value := -1 |}
    = Failure (overflow_message Int32)
  /\ operator_divides Int32 true {| _scale := 0; _value := 7 |}
                                 {| _scale := 0; _value := 0 |}
     = Undefined.
Proof.
  split.
  - apply (proj1 (proj2 (division_fails_only_for_min_by_minus_one
                           Int32 BASE_10
                           {| _scale := 0; _value := -2147483648 |}
                           {| _scale := 0; _value := -1 |}))).
    split; reflexivity.
  - apply (proj1 (proj2 (proj2 (proj2
             (division_fails_only_for_min_by_minus_one
                Int32 BASE_10 {| _scale := 0; _value := 7 |}
                {| _scale := 0; _value := 0 |})))) true).
    reflexivity.
Defined.

(** ** C10: compound assignment *)

(** C10.  Each compound assignment is the binary operator followed by the
    assignment: started on an object [x], [x op= y] leaves in [x], and
    shows through the returned reference, what [x op y] yields from the
    prior state of [x]; it fails, or is undefined, exactly as [x op y] is,
    and does nothing else. *)
Theorem compound_assignment_is_operator_then_assignment :
  forall (rep : Rep) (Rad : Radix) (debug : bool) (x y : fixed_point),
    operator_plus_assign rep Rad debug y x
    = assignment_of (operator_plus rep Rad debug x y)
    /\ operator_minus_assign rep Rad debug y x
       = assignment_of (operator_minus rep Rad debug x y)
    /\ operator_multiplies_assign rep debug y x
       = assignment_of (operator_multiplies rep debug x y)
    /\ operator_divides_assign rep debug y x
       = assignment_of (operator_divides rep debug x y).
Proof.
  intros rep Rad debug x y.
  unfold operator_plus_assign, operator_minus_assign,
    operator_multiplies_assign, operator_divides_assign,
    bind, read_this, lift, assign_this, assignment_of.
  split; [| split; [| split]].
  - destruct (operator_plus rep Rad debug x y); reflexivity.
  - destruct (operator_minus rep Rad debug x y); reflexivity.
  - destruct (operator_multiplies rep debug x y); reflexivity.
  - destruct (operator_divides rep debug x y); reflexivity.
Qed.

(** * Further properties of the code *)

(** ** Construction and conversion *)

(** X1.  The constructor from a native integer [v] and a scale [s] stores
    the quotient of [v] by [Radix^s], truncated toward zero, when [s] is
    not negative, and the product [v * Radix^(-s)] when [s] is negative
    ([v], the power and the product below [2^53]); it has no defined result
    when that raw value does not fit [Rep]. *)
Theorem constructor_truncates :
  forall (rep : Rep) (Rad : Radix) (v : Z) (s : scale_type),
    let R := radix_value Rad in
    (0 <= s -> R ^ s < 2 ^ 53 -> Z.abs v < 2 ^ 53 ->
     from_value_and_scale rep Rad (Integral v) s
     = if Int.in_rangeb (bits rep) (Z.quot v (R ^ s))
       then Some {| _scale := s; _value := Z.quot v (R ^ s) |}
       else None)
    /\ (s < 0 -> negatable s -> R ^ (- s) < 2 ^ 53 ->
        Z.abs (v * R ^ (- s)) < 2 ^ 53 ->
        from_value_and_scale rep Rad (Integral v) s
        = if Int.in_rangeb (bits rep) (v * R ^ (- s))
          then Some {| _scale := s; _value := v * R ^ (- s) |}
          else None).
Proof.
  intros rep Rad v s R. split.
  - intros Hs Hp Hv. unfold from_value_and_scale, Double.to_int.
    cbn [as_double].
    rewrite ShiftFacts.shift_nonneg_trunc by assumption. fold R.
    destruct (Int.in_rangeb (bits rep) (Z.quot v (R ^ s))); reflexivity.
  - intros Hs Hn Hp Hv. unfold from_value_and_scale. cbn [as_double].
    rewrite ShiftFacts.shift_neg_exact by assumption. fold R.
    rewrite DoubleFacts.to_int_of_Z_cases by assumption.
    destruct (Int.in_rangeb (bits rep) (v * R ^ (- s))); reflexivity.
Qed.

Lemma constructor_truncates_witness :
  from_value_and_scale Int32 BASE_10 (Integral (-1234)) 2
  = Some {| _scale := 2; _value := -12 |}
  /\ from_value_and_scale Int8 BASE_10 (Integral 13) (-1) = None.
Proof.
  split.
  - apply (proj1 (constructor_truncates Int32 BASE_10 (-1234) 2));
      vm_compute; (reflexivity || discriminate).
  - apply (proj2 (constructor_truncates Int8 BASE_10 13 (-1)));
      vm_compute; repeat split; (reflexivity || discriminate).
Defined.

(** X2.  Constructing a [fixed_point] from a native integer [v] at a
    non-negative scale [s] and converting it back to the integer type of
    [v] drops the remainder of [v] by [Radix^s]: the round trip returns
    [v - v rem Radix^s], the multiple of [Radix^s] next to [v] toward
    zero ([v] and the power below [2^53], the quotient fitting [Rep]). *)
Theorem round_trip_drops_remainder :
  forall (rep : Rep) (Rad : Radix) (U : Rep) (v : Z) (s : scale_type),
    let R := radix_value Rad in
    0 <= s -> R ^ s < 2 ^ 53 -> Z.abs v < 2 ^ 53 ->
    Int.in_range (bits U) v ->
    Int.in_range (bits rep) (Z.quot v (R ^ s)) ->
    round_trip rep Rad U v s = Some (Integral (v - Z.rem v (R ^ s))).
Proof.
  intros rep Rad U v s R Hs Hp Hv HU Hrep.
  pose proof (ShiftFacts.radix_pow_pos Rad s Hs) as Hpos. fold R in Hpos.
  pose proof (Z.quot_rem' v (R ^ s)) as Hqr.
  pose proof (ShiftFacts.rem_between v (R ^ s) Hpos) as Hbetween.
  assert (HqU : Int.in_range (bits U) (Z.quot v (R ^ s)))
    by (apply ShiftFacts.in_range_quot;
        [apply IntFacts.bits_pos | assumption | assumption]).
  set (q := Z.quot v (R ^ s)) in *. set (r := Z.rem v (R ^ s)) in *.
  assert (Hprod : q * R ^ s = v - r) by lia.
  assert (HprodU : Int.in_range (bits U) (v - r)).
  { assert (0 < 2 ^ (bits U - 1))
      by (apply Z.pow_pos_nonneg; pose proof (IntFacts.bits_pos U); lia).
    unfold Int.in_range, Int.min_signed, Int.max_signed in *. lia. }
  unfold round_trip, from_value_and_scale, Double.to_int. cbn [as_double].
  rewrite ShiftFacts.shift_nonneg_trunc by assumption. fold R. fold q.
  apply IntFacts.in_rangeb_spec in Hrep. rewrite Hrep.
  unfold operator_cast, unshifted, static_cast.
  cbn [_value _scale as_double option_map].
  rewrite IntFacts.wrap_small by (apply IntFacts.bits_pos || assumption).
  rewrite ShiftFacts.unshift_exact;
    fold R; rewrite ?Hprod; try assumption; try lia.
  rewrite DoubleFacts.to_int_of_Z by (assumption || lia). reflexivity.
Qed.

Lemma round_trip_drops_remainder_witness :
  round_trip Int32 BASE_10 Int32 (-1234) 2
  = Some (Integral (-1234 - Z.rem (-1234) (10 ^ 2))).
Proof.
  apply (round_trip_drops_remainder Int32 BASE_10 Int32 (-1234) 2);
    vm_compute; repeat split; (reflexivity || discriminate).
Defined.

(** X4.  On [int32_t] scales [detail::negate] stays within [int32_t] and
    is an involution; it leaves a scale unchanged exactly when the scale
    is 0 or the least [int32_t], whose opposite does not exist. *)
Theorem negate_is_an_involution :
  forall scale : scale_type,
    Int.in_range 32 scale ->
    Int.in_range 32 (detail.negate scale)
    /\ detail.negate (detail.negate scale) = scale
    /\ (detail.negate scale = scale
        <-> scale = 0 \/ scale = Int.min_signed 32).
Proof.
  intros scale Hs. split; [apply IntFacts.wrap_in_range; lia |].
  split; [apply IntFacts.negate_involutive, Hs |].
  destruct (Z.eq_dec scale (Int.min_signed 32)) as [-> | Hne].
  - split; [intros _; right; reflexivity | intros _; reflexivity].
  - rewrite IntFacts.negate_small
      by (unfold negatable, Int.in_range in *; lia).
    lia.
Qed.

Lemma negate_is_an_involution_witness :
  detail.negate (detail.negate (-2147483648)) = -2147483648.
Proof.
  refine (proj1 (proj2 (negate_is_an_involution (-2147483648) _))).
  vm_compute. split; discriminate.
Defined.

(** ** Addition and subtraction *)

(** X5.  [operator+] and [operator-] call the overflow predicates on
    aligned operands of type [double].  On a representation type of at
    most 32 bits the predicates so instantiated are exact: on operands of
    [Rep] they hold exactly when the sum, resp. the difference, does not
    fit [Rep].  On [int64_t] they are not: for the greatest [int64_t] and
    1 the addition predicate is false, and the checked sum of these two
    values at the same scale is undefined rather than a failure. *)
Theorem additive_checks_on_doubles :
  (forall (rep : Rep) (a b : Z),
      bits rep <= 32 ->
      Int.in_range (bits rep) a -> Int.in_range (bits rep) b ->
      addition_overflow (A := double_arithmetic) rep
                        (Double.of_Z a) (Double.of_Z b)
      = negb (Int.in_rangeb (bits rep) (a + b))
      /\ subtraction_overflow (A := double_arithmetic) rep
                              (Double.of_Z a) (Double.of_Z b)
         = negb (Int.in_rangeb (bits rep) (a - b)))
  /\ addition_overflow (A := double_arithmetic) Int64
                       (Double.of_Z (numeric_limits_max Int64))
                       (Double.of_Z 1)
     = false
  /\ operator_plus Int64 BASE_10 true
                   {| _scale := 0; _value := numeric_limits_max Int64 |}
                   {| _scale := 0; _value := 1 |}
     = Undefined.
Proof.
  split; [| split; vm_compute; reflexivity].
  intros rep a b Hbits Ha Hb. split.
  - apply OverflowFacts.addition_overflow_double_spec; assumption.
  - apply OverflowFacts.subtraction_overflow_double_spec; assumption.
Qed.

Lemma additive_checks_on_doubles_witness :
  addition_overflow (A := double_arithmetic) Int32
                    (Double.of_Z 2147483647) (Double.of_Z 1)
  = negb (Int.in_rangeb (bits Int32) (2147483647 + 1))
  /\ subtraction_overflow (A := double_arithmetic) Int32
                          (Double.of_Z (-2147483648)) (Double.of_Z 1)
     = negb (Int.in_rangeb (bits Int32) (-2147483648 - 1)).
Proof.
  split.
  - refine (proj1 (proj1 additive_checks_on_doubles
                     Int32 2147483647 1 _ _ _));
      vm_compute; repeat split; discriminate.
  - refine (proj2 (proj1 additive_checks_on_doubles
                     Int32 (-2147483648) 1 _ _ _));
      vm_compute; repeat split; discriminate.
Defined.

(** X6.  Addition of operands that align exactly.  The result has the
    larger of the two scales; the operand of the smaller scale is divided
    by the power of the radix that separates the scales.  When that
    division is exact (raw values, power and sum below [2^53]) the raw
    value of the result is the sum of the aligned raw values if it fits
    [Rep]; if it does not, the sum is undefined without the overflow
    check, and with the check, on a representation type of at most 32
    bits, it is the overflow failure. *)
Theorem addition_of_aligned_operands :
  forall (rep : Rep) (Rad : Radix) (debug : bool) (lhs rhs : fixed_point),
    let s := Z.max (_scale lhs) (_scale rhs) in
    let a := aligned_raw Rad lhs s in
    let b := aligned_raw Rad rhs s in
    aligns_exactly Rad lhs s = true ->
    aligns_exactly Rad rhs s = true ->
    Z.abs (_value lhs) < 2 ^ 53 -> Z.abs (_value rhs) < 2 ^ 53 ->
    radix_value Rad ^ Z.abs (_scale lhs - _scale rhs) < 2 ^ 53 ->
    Z.abs (a + b) < 2 ^ 53 ->
    (debug = true ->
     bits rep <= 32 /\ Int.in_range (bits rep) (_value lhs)
     /\ Int.in_range (bits rep) (_value rhs)) ->
    operator_plus rep Rad debug lhs rhs
    = if Int.in_rangeb (bits rep) (a + b)
      then Done {| _scale := s; _value := a + b |}
      else if debug then Failure (overflow_message rep) else Undefined.
Proof.
  intros rep Rad debug lhs rhs s a b Hl Hr Hvl Hvr Hp Hsum Hdebug.
  destruct (AlignFacts.aligned_operands Rad lhs rhs Hl Hr Hvl Hvr Hp)
    as (Hal & Har & Ha & Hb).
  apply AlignFacts.plus_of_integers; try assumption.
  intros Hd. destruct (Hdebug Hd) as (Hbits & Hrl & Hrr).
  split; [assumption |].
  split; (apply AlignFacts.aligned_raw_in_range;
          [apply IntFacts.bits_pos | subst s; lia | assumption]).
Qed.

Lemma addition_of_aligned_operands_witness :
  operator_plus Int8 BASE_10 true {| _scale := 0; _value := 120 |}
                                  {| _scale := 1; _value := 7 |}
  = Done {| _scale := 1; _value := 19 |}
  /\ operator_plus Int8 BASE_10 true {| _scale := 1; _value := 120 |}
                                     {| _scale := 0; _value := 80 |}
     = Failure (overflow_message Int8).
Proof.
  split.
  - apply (addition_of_aligned_operands Int8 BASE_10 true
             {| _scale := 0; _value := 120 |} {| _scale := 1; _value := 7 |});
      try (intros _); vm_compute; repeat split;
      (reflexivity || discriminate).
  - apply (addition_of_aligned_operands Int8 BASE_10 true
             {| _scale := 1; _value := 120 |} {| _scale := 0; _value := 80 |});
      try (intros _); vm_compute; repeat split;
      (reflexivity || discriminate).
Defined.

(** X7.  Subtraction of operands that align exactly: as for the addition,
    the result has the larger scale, and its raw value is the difference
    of the aligned raw values if it fits [Rep]; otherwise the difference
    is undefined without the overflow check and, on a representation type
    of at most 32 bits, the overflow failure with it. *)
Theorem subtraction_of_aligned_operands :
  forall (rep : Rep) (Rad : Radix) (debug : bool) (lhs rhs : fixed_point),
    let s := Z.max (_scale lhs) (_scale rhs) in
    let a := aligned_raw Rad lhs s in
    let b := aligned_raw Rad rhs s in
    aligns_exactly Rad lhs s = true ->
    aligns_exactly Rad rhs s = true ->
    Z.abs (_value lhs) < 2 ^ 53 -> Z.abs (_value rhs) < 2 ^ 53 ->
    radix_value Rad ^ Z.abs (_scale lhs - _scale rhs) < 2 ^ 53 ->
    Z.abs (a - b) < 2 ^ 53 ->
    (debug = true ->
     bits rep <= 32 /\ Int.in_range (bits rep) (_value lhs)
     /\ Int.in_range (bits rep) (_value rhs)) ->
    operator_minus rep Rad debug lhs rhs
    = if Int.in_rangeb (bits rep) (a - b)
      then Done {| _scale := s; _value := a - b |}
      else if debug then Failure (overflow_message rep) else Undefined.
Proof.
  intros rep Rad debug lhs rhs s a b Hl Hr Hvl Hvr Hp Hsum Hdebug.
  destruct (AlignFacts.aligned_operands Rad lhs rhs Hl Hr Hvl Hvr Hp)
    as (Hal & Har & Ha & Hb).
  apply AlignFacts.minus_of_integers; try assumption.
  intros Hd. destruct (Hdebug Hd) as (Hbits & Hrl & Hrr).
  split; [assumption |].
  split; (apply AlignFacts.aligned_raw_in_range;
          [apply IntFacts.bits_pos | subst s; lia | assumption]).
Qed.

Lemma subtraction_of_aligned_operands_witness :
  operator_minus Int16 BASE_2 true {| _scale := 3; _value := 5 |}
                                   {| _scale := 1; _value := 12 |}
  = Done {| _scale := 3; _value := 2 |}
  /\ operator_minus Int8 BASE_10 false {| _scale := 0; _value := -100 |}
                                       {| _scale := 0; _value := 100 |}
     = Undefined.
Proof.
  split.
  - apply (subtraction_of_aligned_operands Int16 BASE_2 true
             {| _scale := 3; _value := 5 |} {| _scale := 1; _value := 12 |});
      try (intros _); vm_compute; repeat split;
      (reflexivity || discriminate).
  - apply (subtraction_of_aligned_operands Int8 BASE_10 false
             {| _scale := 0; _value := -100 |}
             {| _scale := 0; _value := 100 |});
      try (intros _); vm_compute; repeat split;
      (reflexivity || discriminate).
Defined.

(** X8.  Without the overflow check the addition is commutative on all
    operands, whatever their raw values and scales: exchanging the
    operands exchanges the two aligned values and leaves their sum in
    [double], its conversion to [Rep] and the result scale unchanged. *)
Theorem addition_commutes :
  forall (rep : Rep) (Rad : Radix) (lhs rhs : fixed_point),
    operator_plus rep Rad false lhs rhs = operator_plus rep Rad false rhs lhs.
Proof.
  intros rep Rad lhs rhs. unfold operator_plus. cbn [andb].
  assert (Hr : aligned_rhs Rad lhs rhs = aligned_lhs Rad rhs lhs).
  { unfold aligned_rhs, aligned_lhs. rewrite Z.gtb_ltb. reflexivity. }
  assert (Hl : aligned_lhs Rad lhs rhs = aligned_rhs Rad rhs lhs).
  { unfold aligned_rhs, aligned_lhs. rewrite Z.gtb_ltb. reflexivity. }
  assert (Hs : result_scale lhs rhs = result_scale rhs lhs)
    by (rewrite !AlignFacts.result_scale_max; apply Z.max_comm).
  rewrite Hr, Hl, Hs, DoubleFacts.add_comm. reflexivity.
Qed.

(** X9.  [x += y] followed by [x -= y] restores [x], and returns it, when
    [y] has a scale not above that of [x] and aligns to it exactly, and
    the intermediate sum fits [Rep] (raw values, power and sum below
    [2^53]; with the overflow check, a representation type of at most 32
    bits). *)
Theorem plus_assign_then_minus_assign :
  forall (rep : Rep) (Rad : Radix) (debug : bool) (x y : fixed_point),
    let b := aligned_raw Rad y (_scale x) in
    _scale y <= _scale x ->
    aligns_exactly Rad y (_scale x) = true ->
    Z.abs (_value x) < 2 ^ 53 -> Z.abs (_value y) < 2 ^ 53 ->
    radix_value Rad ^ (_scale x - _scale y) < 2 ^ 53 ->
    Int.in_range (bits rep) (_value x) ->
    Int.in_range (bits rep) (_value x + b) ->
    Z.abs (_value x + b) < 2 ^ 53 ->
    (debug = true -> bits rep <= 32 /\ Int.in_range (bits rep) (_value y)) ->
    (_ <- operator_plus_assign rep Rad debug y ;;
     operator_minus_assign rep Rad debug y) x
    = Done (x, x).
Proof.
  intros rep Rad debug x y b Hs Hex Hvx Hvy Hp Hrx Hsum Hsum53 Hdebug.
  assert (Hb53 : Z.abs b < 2 ^ 53).
  { pose proof (AlignFacts.aligned_raw_abs Rad y (_scale x) Hs).
    subst b. lia. }
  assert (Hbr : debug = true ->
                bits rep <= 32 /\ Int.in_range (bits rep) b).
  { intros Hd. destruct (Hdebug Hd) as [Hbits Hry]. split; [assumption |].
    apply AlignFacts.aligned_raw_in_range;
      [apply IntFacts.bits_pos | assumption | assumption]. }
  set (x' := {| _scale := _scale x; _value := _value x + b |}).
  (* the addition *)
  assert (Hplus : operator_plus rep Rad debug x y = Done x').
  { destruct (AlignFacts.aligned_to_lhs Rad x y Hs Hex Hvy Hp) as [Hal Har].
    rewrite (AlignFacts.plus_of_integers rep Rad debug x y (_value x) b);
      try assumption.
    - apply IntFacts.in_rangeb_spec in Hsum. rewrite Hsum.
      rewrite Z.max_l by assumption. reflexivity.
    - intros Hd. destruct (Hbr Hd). auto. }
  (* the subtraction from the sum *)
  assert (Hminus : operator_minus rep Rad debug x' y = Done x).
  { destruct (AlignFacts.aligned_to_lhs Rad x' y Hs Hex Hvy Hp)
      as [Hal Har].
    cbn [x' _scale _value] in Hal, Har. fold b in Har.
    rewrite (AlignFacts.minus_of_integers rep Rad debug x' y
               (_value x + b) b);
      try assumption;
      replace (_value x + b - b) with (_value x) by lia; try assumption.
    - apply IntFacts.in_rangeb_spec in Hrx. rewrite Hrx.
      cbn [x' _scale]. rewrite Z.max_l by assumption.
      destruct x; reflexivity.
    - intros Hd. destruct (Hbr Hd). auto. }
  unfold operator_plus_assign, operator_minus_assign, bind, read_this,
    lift, assign_this.
  rewrite Hplus, Hminus. reflexivity.
Qed.

Lemma plus_assign_then_minus_assign_witness :
  (_ <- operator_plus_assign Int16 BASE_10 true
          {| _scale := -1; _value := 300 |} ;;
   operator_minus_assign Int16 BASE_10 true
     {| _scale := -1; _value := 300 |}) {| _scale := 1; _value := 7 |}
  = Done ({| _scale := 1; _value := 7 |}, {| _scale := 1; _value := 7 |}).
Proof.
  apply (plus_assign_then_minus_assign Int16 BASE_10 true
           {| _scale := 1; _value := 7 |} {| _scale := -1; _value := 300 |});
    try match goal with |- _ = true -> _ => intros _ end;
    vm_compute; repeat split; (reflexivity || discriminate).
Defined.

(** ** Multiplication and division *)

(** X10.  With the overflow check, the multiplication of operands whose
    raw values are [Rep] values either fails with the overflow message or
    returns the mathematical product of the raw values: it fails exactly
    when that product does not fit [Rep].  (The sum of the scales is not
    checked.) *)
Theorem checked_multiplication :
  forall (rep : Rep) (lhs rhs : fixed_point),
    Int.in_range (bits rep) (_value lhs) ->
    Int.in_range (bits rep) (_value rhs) ->
    operator_multiplies rep true lhs rhs
    = if Int.in_rangeb (bits rep) (_value lhs * _value rhs)
      then Done {| _scale := Int.wrap 32 (_scale lhs + _scale rhs);
                   _value := _value lhs * _value rhs |}
      else Failure (overflow_message rep).
Proof.
  intros rep lhs rhs Hl Hr. unfold operator_multiplies, from_scaled.
  cbn [andb value scale].
  rewrite OverflowFacts.multiplication_overflow_rep by assumption.
  destruct (Int.in_rangeb (bits rep) (_value lhs * _value rhs)) eqn:E;
    cbn [negb]; [| reflexivity].
  apply IntFacts.in_rangeb_spec in E.
  rewrite IntFacts.narrow_promoted.
  rewrite (IntFacts.wrap_small (bits rep))
    by (apply IntFacts.bits_pos || assumption).
  reflexivity.
Qed.

Lemma checked_multiplication_witness :
  operator_multiplies Int8 true {| _scale := 1; _value := 16 |}
                                {| _scale := -3; _value := 8 |}
  = Failure (overflow_message Int8).
Proof.
  apply (checked_multiplication Int8 {| _scale := 1; _value := 16 |}
                                     {| _scale := -3; _value := 8 |});
    vm_compute; split; discriminate.
Defined.

(** X11.  The multiplication is commutative on operands whose raw values
    are [Rep] values, with or without the overflow check: although
    [multiplication_overflow] treats its two arguments differently, it
    gives the same answer when they are exchanged. *)
Theorem multiplication_commutes :
  forall (rep : Rep) (debug : bool) (lhs rhs : fixed_point),
    Int.in_range (bits rep) (_value lhs) ->
    Int.in_range (bits rep) (_value rhs) ->
    operator_multiplies rep debug lhs rhs
    = operator_multiplies rep debug rhs lhs.
Proof.
  intros rep debug lhs rhs Hl Hr. unfold operator_multiplies.
  rewrite !OverflowFacts.multiplication_overflow_rep by assumption.
  rewrite (Z.mul_comm (_value rhs)), (Z.add_comm (_scale rhs)).
  reflexivity.
Qed.

Lemma multiplication_commutes_witness :
  operator_multiplies Int8 true {| _scale := 1; _value := -128 |}
                                {| _scale := 2; _value := -1 |}
  = operator_multiplies Int8 true {| _scale := 2; _value := -1 |}
                                  {| _scale := 1; _value := -128 |}.
Proof.
  apply (multiplication_commutes Int8 true
           {| _scale := 1; _value := -128 |} {| _scale := 2; _value := -1 |});
    vm_compute; split; discriminate.
Defined.

(** X12.  Without the overflow check the multiplication is associative on
    all operands: the wrap-around of the raw values and of the scales
    does not depend on the order in which three values are multiplied. *)
Theorem multiplication_associates :
  forall (rep : Rep) (x y z : fixed_point),
    and_then (operator_multiplies rep false x y)
             (fun p => operator_multiplies rep false p z)
    = and_then (operator_multiplies rep false y z)
               (fun q => operator_multiplies rep false x q).
Proof.
  intros rep x y z. unfold operator_multiplies, from_scaled.
  cbn [andb and_then value scale _value _scale].
  rewrite !IntFacts.narrow_promoted.
  pose proof (IntFacts.bits_pos rep).
  rewrite IntFacts.wrap_mul_l, IntFacts.wrap_mul_r,
    IntFacts.wrap_add_l, IntFacts.wrap_add_r by lia.
  rewrite Z.mul_assoc, Z.add_assoc. reflexivity.
Qed.

(** X13.  Multiplying a well-formed [x] by a well-formed [y] of non-zero
    raw value and dividing the product by [y] restores [x], raw value and
    scale, with or without the overflow check, whenever the product of
    the raw values fits [Rep]; the scale is restored even when the sum of
    the scales wraps around. *)
Theorem multiply_then_divide :
  forall (rep : Rep) (debug : bool) (x y : fixed_point),
    well_formed rep x -> well_formed rep y ->
    _value y <> 0 ->
    Int.in_range (bits rep) (_value x * _value y) ->
    and_then (operator_multiplies rep debug x y)
             (fun p => operator_divides rep debug p y)
    = Done x.
Proof.
  intros rep debug [sx vx] [sy vy] [Hvx Hsx] [Hvy Hsy] Hnz Hprod.
  cbn [_value _scale] in *.
  rewrite ValueFacts.multiplies_in_range by assumption.
  cbn [and_then _value _scale].
  rewrite OverflowFacts.divides_in_range;
    cbn [_value _scale]; rewrite ?Z.quot_mul by assumption;
    try assumption.
  - rewrite IntFacts.wrap_sub_l by lia.
    replace (sx + sy - sy) with sx by lia.
    rewrite IntFacts.wrap_small by (lia || assumption).
    reflexivity.
  - intros [Hmin ->]. destruct rep; OverflowFacts.limits; lia.
Qed.

Lemma multiply_then_divide_witness :
  and_then (operator_multiplies Int32 true
              {| _scale := 2147483647; _value := -12 |}
              {| _scale := 5; _value := 7 |})
           (fun p => operator_divides Int32 true p
                       {| _scale := 5; _value := 7 |})
  = Done {| _scale := 2147483647; _value := -12 |}.
Proof.
  apply (multiply_then_divide Int32 true
           {| _scale := 2147483647; _value := -12 |}
           {| _scale := 5; _value := 7 |});
    vm_compute; repeat split; discriminate.
Defined.

(** X14.  Dividing a well-formed [x] by a well-formed [y] of non-zero raw
    value and multiplying the quotient by [y] restores the scale of [x]
    and drops from its raw value the remainder of the division, with or
    without the overflow check, the quotient of the least [Rep] value by
    -1 apart: the multiplication back never overflows. *)
Theorem divide_then_multiply :
  forall (rep : Rep) (debug : bool) (x y : fixed_point),
    well_formed rep x -> well_formed rep y ->
    _value y <> 0 ->
    ~ (_value x = numeric_limits_min rep /\ _value y = -1) ->
    and_then (operator_divides rep debug x y)
             (fun q => operator_multiplies rep debug q y)
    = Done {| _scale := _scale x;
              _value := _value x - Z.rem (_value x) (_value y) |}.
Proof.
  intros rep debug [sx vx] [sy vy] [Hvx Hsx] [Hvy Hsy] Hnz Hnot.
  cbn [_value _scale] in *.
  pose proof (Z.quot_rem' vx vy) as Hqr.
  assert (Hq : Int.in_range (bits rep) (Z.quot vx vy))
    by (apply OverflowFacts.quot_in_range; assumption).
  assert (Hback : Int.in_range (bits rep) (Z.quot vx vy * vy)).
  { replace (Z.quot vx vy * vy) with (vx - Z.rem vx vy) by lia.
    pose proof (Z.rem_bound_abs vx vy Hnz).
    pose proof (Z.rem_sign_mul vx vy Hnz).
    assert (0 < 2 ^ (bits rep - 1))
      by (apply Z.pow_pos_nonneg; pose proof (IntFacts.bits_pos rep); lia).
    unfold Int.in_range, Int.min_signed, Int.max_signed in *. nia. }
  rewrite OverflowFacts.divides_in_range by assumption.
  cbn [and_then _value _scale].
  rewrite ValueFacts.multiplies_in_range by assumption.
  cbn [_value _scale].
  rewrite IntFacts.wrap_add_l by lia.
  replace (sx - sy + sy) with sx by lia.
  rewrite IntFacts.wrap_small by (lia || assumption).
  f_equal. f_equal. lia.
Qed.

Lemma divide_then_multiply_witness :
  and_then (operator_divides Int32 true
              {| _scale := 1; _value := -17 |}
              {| _scale := 3; _value := 5 |})
           (fun q => operator_multiplies Int32 true q
                       {| _scale := 3; _value := 5 |})
  = Done {| _scale := 1; _value := -17 - Z.rem (-17) 5 |}.
Proof.
  apply (divide_then_multiply Int32 true
           {| _scale := 1; _value := -17 |} {| _scale := 3; _value := 5 |});
    vm_compute; repeat split; try discriminate.
  intros [H _]. discriminate H.
Defined.

(** ** [get()] and [operator==] *)

(** X15.  For an object of non-negative scale that stands for an integer
    which [Rep] holds and [double] holds exactly, [get()] returns that
    integer, [_value * Radix^_scale], as a [double], whichever branch its
    exactness test selects: the two branches agree. *)
Theorem get_returns_represented_value :
  forall (rep : Rep) (Rad : Radix) (x : fixed_point),
    stands_for_integer rep Rad x = true ->
    get rep Rad x = Some (Double.of_Z (represented Rad x))
    /\ Double.trunc (Double.of_Z (represented Rad x))
       = Some (represented Rad x)
    /\ option_map as_double (operator_cast Rad TDouble x)
       = option_map as_double (operator_cast Rad (TInt rep) x).
Proof.
  intros rep Rad x H. split; [apply AlignFacts.get_value, H |].
  apply AlignFacts.stands_for_integer_spec in H.
  destruct H as (Hs & Hp & Habs & Hv & Hrep & Hq).
  split; [apply DoubleFacts.trunc_of_Z, Habs |].
  unfold represented in *.
  unfold operator_cast, unshifted, static_cast.
  cbn [as_double option_map].
  rewrite IntFacts.wrap_small by (apply IntFacts.bits_pos || assumption).
  rewrite ShiftFacts.unshift_exact by assumption.
  rewrite DoubleFacts.to_int_of_Z by assumption. reflexivity.
Qed.

Lemma get_returns_represented_value_witness :
  get Int32 BASE_10 {| _scale := 2; _value := 100 |}
  = Some (Double.of_Z (represented BASE_10 {| _scale := 2; _value := 100 |})).
Proof.
  apply (get_returns_represented_value Int32 BASE_10
           {| _scale := 2; _value := 100 |}).
  vm_compute. reflexivity.
Defined.

(** X16.  On two such objects [operator==] decides the equality of the
    integers they stand for, not that of the stored pairs: objects of
    different scales are equal when [_value * Radix^_scale] is the same. *)
Theorem equality_compares_represented_values :
  forall (rep : Rep) (Rad : Radix) (lhs rhs : fixed_point),
    stands_for_integer rep Rad lhs = true ->
    stands_for_integer rep Rad rhs = true ->
    operator_eq rep Rad lhs rhs
    = Some (represented Rad lhs =? represented Rad rhs).
Proof.
  intros rep Rad lhs rhs Hl Hr.
  unfold operator_eq. rewrite !AlignFacts.get_value by assumption.
  apply AlignFacts.stands_for_integer_spec in Hl, Hr.
  rewrite DoubleFacts.eqb_of_Z by (apply Hl || apply Hr). reflexivity.
Qed.

Lemma equality_compares_represented_values_witness :
  operator_eq Int32 BASE_10 {| _scale := 2; _value := 10 |}
                            {| _scale := 0; _value := 1000 |}
  = Some (represented BASE_10 {| _scale := 2; _value := 10 |}
          =? represented BASE_10 {| _scale := 0; _value := 1000 |}).
Proof.
  apply (equality_compares_represented_values Int32 BASE_10
           {| _scale := 2; _value := 10 |}
           {| _scale := 0; _value := 1000 |});
    vm_compute; reflexivity.
Defined.

(** ** The rational value an object stands for *)

(** X18.  What a constructed object stands for.  When the constructor
    from a native integer [v] and a scale [s] returns an object, the
    object stands for [v] itself if [s] is negative, and for [v] less its
    remainder by [Radix^s] if [s] is not negative ([v], the power and the
    raw value below [2^53]). *)
Theorem constructor_value :
  forall (rep : Rep) (Rad : Radix) (v : Z) (s : scale_type) (x : fixed_point),
    let R := radix_value Rad in
    from_value_and_scale rep Rad (Integral v) s = Some x ->
    (0 <= s -> R ^ s < 2 ^ 53 -> Z.abs v < 2 ^ 53 ->
     (value_of Rad x == inject_Z (v - Z.rem v (R ^ s)))%Q)
    /\ (s < 0 -> negatable s -> R ^ (- s) < 2 ^ 53 ->
        Z.abs (v * R ^ (- s)) < 2 ^ 53 ->
        (value_of Rad x == inject_Z v)%Q).
Proof.
  intros rep Rad v s x R Hx. split.
  - intros Hs Hp Hv. revert Hx.
    unfold from_value_and_scale, Double.to_int. cbn [as_double].
    rewrite ShiftFacts.shift_nonneg_trunc by assumption. fold R.
    destruct (Int.in_rangeb (bits rep) (Z.quot v (R ^ s))); [| discriminate].
    intros H. injection H as <-.
    apply ValueFacts.value_of_constructed_nonneg, Hs.
  - intros Hs Hn Hp Hv. revert Hx.
    unfold from_value_and_scale. cbn [as_double].
    rewrite ShiftFacts.shift_neg_exact by assumption. fold R.
    rewrite DoubleFacts.to_int_of_Z_cases by assumption.
    destruct (Int.in_rangeb (bits rep) (v * R ^ (- s))); [| discriminate].
    intros H. injection H as <-.
    apply ValueFacts.value_of_constructed_neg, Hs.
Qed.

Lemma constructor_value_witness :
  (value_of BASE_10 {| _scale := 2%Z; _value := -12 |}
   == inject_Z (-1234 - Z.rem (-1234) (10 ^ 2)))%Q
  /\ (value_of BASE_10 {| _scale := (-2)%Z; _value := 1200 |}
      == inject_Z 12)%Q.
Proof.
  split.
  - refine (proj1 (constructor_value Int32 BASE_10 (-1234) 2
                     {| _scale := 2; _value := -12 |} _) _ _ _);
      vm_compute; (reflexivity || discriminate).
  - refine (proj2 (constructor_value Int32 BASE_10 12 (-2)
                     {| _scale := -2; _value := 1200 |} _) _ _ _ _);
      vm_compute; repeat split; (reflexivity || discriminate).
Defined.

(** X19.  The multiplication is exact on what the operands stand for: on
    well-formed operands whose raw product fits [Rep] and whose scales
    add up within [int32_t], the operator returns, with or without the
    overflow check, an object that stands for the product of the two
    rational values, whatever the signs of the scales. *)
Theorem multiplication_is_exact :
  forall (rep : Rep) (Rad : Radix) (debug : bool) (x y : fixed_point),
    well_formed rep x -> well_formed rep y ->
    Int.in_range (bits rep) (_value x * _value y) ->
    Int.in_range 32 (_scale x + _scale y) ->
    exists p,
      operator_multiplies rep debug x y = Done p
      /\ (value_of Rad p == value_of Rad x * value_of Rad y)%Q.
Proof.
  intros rep Rad debug [sx vx] [sy vy] [Hvx _] [Hvy _] Hprod Hsum.
  cbn [_scale _value] in *.
  exists {| _scale := sx + sy; _value := vx * vy |}. split.
  - rewrite ValueFacts.multiplies_in_range by assumption.
    cbn [_scale _value].
    rewrite IntFacts.wrap_small by (lia || assumption). reflexivity.
  - apply ValueFacts.value_of_product.
Qed.

Lemma multiplication_is_exact_witness :
  exists p,
    operator_multiplies Int16 true {| _scale := -2; _value := 125 |}
                                   {| _scale := 1; _value := -4 |}
    = Done p
    /\ (value_of BASE_10 p
        == value_of BASE_10 {| _scale := (-2)%Z; _value := 125 |}
           * value_of BASE_10 {| _scale := 1%Z; _value := -4 |})%Q.
Proof.
  apply (multiplication_is_exact Int16 BASE_10 true
           {| _scale := -2; _value := 125 |} {| _scale := 1; _value := -4 |});
    vm_compute; repeat split; discriminate.
Defined.

(** X20.  The addition and the subtraction are exact on what the operands
    stand for when the operands align exactly: if the sum, resp. the
    difference, of the aligned raw values fits [Rep], the operator returns
    an object that stands for the sum, resp. the difference, of the two
    rational values (raw values, power and result below [2^53]; with the
    overflow check, a representation type of at most 32 bits). *)
Theorem additive_operators_are_exact :
  forall (rep : Rep) (Rad : Radix) (debug : bool) (lhs rhs : fixed_point),
    let s := Z.max (_scale lhs) (_scale rhs) in
    let a := aligned_raw Rad lhs s in
    let b := aligned_raw Rad rhs s in
    aligns_exactly Rad lhs s = true ->
    aligns_exactly Rad rhs s = true ->
    Z.abs (_value lhs) < 2 ^ 53 -> Z.abs (_value rhs) < 2 ^ 53 ->
    radix_value Rad ^ Z.abs (_scale lhs - _scale rhs) < 2 ^ 53 ->
    (debug = true ->
     bits rep <= 32 /\ Int.in_range (bits rep) (_value lhs)
     /\ Int.in_range (bits rep) (_value rhs)) ->
    (Int.in_range (bits rep) (a + b) -> Z.abs (a + b) < 2 ^ 53 ->
     exists r,
       operator_plus rep Rad debug lhs rhs = Done r
       /\ (value_of Rad r == value_of Rad lhs + value_of Rad rhs)%Q)
    /\ (Int.in_range (bits rep) (a - b) -> Z.abs (a - b) < 2 ^ 53 ->
        exists r,
          operator_minus rep Rad debug lhs rhs = Done r
          /\ (value_of Rad r == value_of Rad lhs - value_of Rad rhs)%Q).
Proof.
  intros rep Rad debug lhs rhs s a b Hl Hr Hvl Hvr Hp Hdebug.
  destruct (AlignFacts.aligned_operands Rad lhs rhs Hl Hr Hvl Hvr Hp)
    as (Hal & Har & Ha & Hb).
  assert (Hdebug' : debug = true ->
                    bits rep <= 32 /\ Int.in_range (bits rep) a
                    /\ Int.in_range (bits rep) b).
  { intros Hd. destruct (Hdebug Hd) as (Hbits & Hrl & Hrr).
    split; [assumption |].
    split; (apply AlignFacts.aligned_raw_in_range;
            [apply IntFacts.bits_pos | subst s; lia | assumption]). }
  assert (Hvl' := ValueFacts.value_of_aligned Rad lhs s
                    ltac:(subst s; lia) Hl).
  assert (Hvr' := ValueFacts.value_of_aligned Rad rhs s
                    ltac:(subst s; lia) Hr).
  fold a in Hvl'. fold b in Hvr'.
  split.
  - intros Hin Hsum. exists {| _scale := s; _value := a + b |}. split.
    + rewrite (AlignFacts.plus_of_integers rep Rad debug lhs rhs a b)
        by assumption.
      apply IntFacts.in_rangeb_spec in Hin. rewrite Hin. reflexivity.
    + rewrite ValueFacts.value_of_sum, Hvl', Hvr'. reflexivity.
  - intros Hin Hsum. exists {| _scale := s; _value := a - b |}. split.
    + rewrite (AlignFacts.minus_of_integers rep Rad debug lhs rhs a b)
        by assumption.
      apply IntFacts.in_rangeb_spec in Hin. rewrite Hin. reflexivity.
    + rewrite ValueFacts.value_of_difference, Hvl', Hvr'. reflexivity.
Qed.

Lemma additive_operators_are_exact_witness :
  (exists r,
      operator_plus Int16 BASE_10 true {| _scale := -2; _value := 1250 |}
                                       {| _scale := -1; _value := 3 |}
      = Done r
      /\ (value_of BASE_10 r
          == value_of BASE_10 {| _scale := (-2)%Z; _value := 1250 |}
             + value_of BASE_10 {| _scale := (-1)%Z; _value := 3 |})%Q)
  /\ (exists r,
         operator_minus Int16 BASE_10 true {| _scale := -2; _value := 1250 |}
                                           {| _scale := -1; _value := 3 |}
         = Done r
         /\ (value_of BASE_10 r
             == value_of BASE_10 {| _scale := (-2)%Z; _value := 1250 |}
                - value_of BASE_10 {| _scale := (-1)%Z; _value := 3 |})%Q).
Proof.
  split.
  - refine (proj1 (additive_operators_are_exact Int16 BASE_10 true
                     {| _scale := -2; _value := 1250 |}
                     {| _scale := -1; _value := 3 |} _ _ _ _ _ _) _ _);
      try match goal with |- _ = true -> _ => intros _ end;
      vm_compute; repeat split; (reflexivity || discriminate).
  - refine (proj2 (additive_operators_are_exact Int16 BASE_10 true
                     {| _scale := -2; _value := 1250 |}
                     {| _scale := -1; _value := 3 |} _ _ _ _ _ _) _ _);
      try match goal with |- _ = true -> _ => intros _ end;
      vm_compute; repeat split; (reflexivity || discriminate).
Defined.
